(** * TreeWalkViz: the execution-step model, the traversal generators,
      the state manager and the execution engine.

    Shallow embedding of [src/execution-step.js], [src/tree-model.js],
    [src/traversal-generators.js], [src/state-manager.js] and
    [src/execution-engine.js].

    Conventions of the embedding:
    - a JS number that holds a node value, a line number, a step index or a
      delay in milliseconds is a [Z];
    - a nullable node value ([number|null]) is an [option Z];
    - a nullable tree node is the constructor [null] of [tree];
    - a JS array is a [list], [push] appends at the end;
    - the [Map] of node states is a [gmap Z NodeState];
    - the subscriber list of the state manager is not part of the model:
      callbacks receive a clone of the state and cannot change the manager;
    - the interval timer of the engine is reduced to the fact that a handle is
      held ([_playIntervalId] is [None] or [Some tt]). *)

From stdpp Require Import base numbers list option strings pretty gmap fin_maps.

Open Scope string_scope.
Open Scope list_scope.
Open Scope Z_scope.

(* ================================================================== *)
(** ** Execution step model ([src/execution-step.js])                  *)
(* ================================================================== *)

Inductive StepType :=
  | CALL | CHECK_NULL | PROCESS_NODE | RECURSE_LEFT | RECURSE_RIGHT | RETURN.

Inductive NodeState := UNVISITED | PROCESSING | VISITED | FINISHED.

Inductive StackAction := PUSH | POP | NONE.

#[global] Instance StepType_eq_dec : EqDecision StepType.
Proof. solve_decision. Defined.
#[global] Instance NodeState_eq_dec : EqDecision NodeState.
Proof. solve_decision. Defined.
#[global] Instance StackAction_eq_dec : EqDecision StackAction.
Proof. solve_decision. Defined.

Module ExecutionStep.

Record t := new {
  type : StepType;
  nodeValue : option Z;
  codeLine : Z;
  stackAction : StackAction;
  nodeState : NodeState;
  description : string
}.

(** [nodeValue !== null ? a : b] *)
Definition ifPresent {A} (nodeValue : option Z) (a : Z -> A) (b : A) : A :=
  match nodeValue with Some v => a v | None => b end.

(** The text a template literal gives for [${nodeValue}]. *)
Definition show (nodeValue : option Z) : string :=
  ifPresent nodeValue pretty "null".

Definition call (nodeValue : option Z) (codeLine : Z) : t :=
  new CALL nodeValue codeLine PUSH
      (ifPresent nodeValue (fun _ => PROCESSING) UNVISITED)
      (ifPresent nodeValue
         (fun v => "Call function with node " +:+ pretty v)
         "Call function with null").

Definition checkNull (nodeValue : option Z) (codeLine : Z) : t :=
  new CHECK_NULL nodeValue codeLine NONE
      (ifPresent nodeValue (fun _ => PROCESSING) UNVISITED)
      (ifPresent nodeValue
         (fun v => "Check if node " +:+ pretty v +:+ " is null (false)")
         "Check if node is null (true)").

Definition processNode (nodeValue : option Z) (codeLine : Z) : t :=
  new PROCESS_NODE nodeValue codeLine NONE VISITED
      ("Process/print node " +:+ show nodeValue).

Definition recurseLeft (nodeValue : option Z) (codeLine : Z) : t :=
  new RECURSE_LEFT nodeValue codeLine NONE PROCESSING
      ("Recurse to left child of node " +:+ show nodeValue).

Definition recurseRight (nodeValue : option Z) (codeLine : Z) : t :=
  new RECURSE_RIGHT nodeValue codeLine NONE PROCESSING
      ("Recurse to right child of node " +:+ show nodeValue).

(** [static return(nodeValue, codeLine, isNullReturn = false)] *)
Definition return_ (nodeValue : option Z) (codeLine : Z)
           (isNullReturn : bool) : t :=
  new RETURN nodeValue codeLine POP
      (if isNullReturn then UNVISITED else FINISHED)
      (ifPresent nodeValue
         (fun v => "Return from node " +:+ pretty v)
         "Return from null check").

End ExecutionStep.

Abbreviation ExecutionStep := ExecutionStep.t.

Module StackFrame.

Record t := new {
  functionName : string;
  nodeValue : option Z;
  returnAddress : string
}.

(** The object spread [{ ...frame }]: a fresh object with the same fields. *)
Definition spread (frame : t) : t :=
  new (functionName frame) (nodeValue frame) (returnAddress frame).

End StackFrame.

Abbreviation StackFrame := StackFrame.t.

(* ================================================================== *)
(** ** Binary tree model ([src/tree-model.js])                          *)
(* ================================================================== *)

(** A [TreeNode] reference or [null].  The render coordinates [x], [y] are
    written by the layout only and read by no function embedded here. *)
Inductive tree :=
  | null
  | TreeNode (value : Z) (left right : tree).

Definition leaf (value : Z) : tree := TreeNode value null null.

Definition createDefaultTree : tree :=
  TreeNode 4 (TreeNode 2 (leaf 1) (leaf 3)) (TreeNode 6 (leaf 5) (leaf 7)).

(** [getAllNodes(root).map(n => n.value)]: the inner [traverse] pushes the
    node, then walks the left and the right subtree. *)
Fixpoint getAllNodes_traverse (node : tree) (nodes : list Z) : list Z :=
  match node with
  | null => nodes
  | TreeNode value left_ right_ =>
      getAllNodes_traverse right_
        (getAllNodes_traverse left_ (nodes ++ [value]))
  end.

Definition getAllNodes (root : tree) : list Z := getAllNodes_traverse root [].

Fixpoint countNodes (root : tree) : nat :=
  match root with
  | null => 0
  | TreeNode _ left_ right_ => (1 + countNodes left_ + countNodes right_)%nat
  end.

(** [getAllNodes(root)] before the values are read off: the node objects,
    each one a non-null [tree]. *)
Fixpoint allNodes_traverse (node : tree) (nodes : list tree) : list tree :=
  match node with
  | null => nodes
  | TreeNode _ left_ right_ =>
      allNodes_traverse right_ (allNodes_traverse left_ (nodes ++ [node]))
  end.

Definition allNodes (root : tree) : list tree := allNodes_traverse root [].

(** [node.value] of a node object, [None] on [null]. *)
Definition valueOf (node : tree) : option Z :=
  match node with
  | null => None
  | TreeNode value _ _ => Some value
  end.

(** [findNode(root.left, value) || findNode(root.right, value)]: a node
    object is truthy, [null] is not. *)
Fixpoint findNode (root : tree) (value : Z) : tree :=
  match root with
  | null => null
  | TreeNode v left_ right_ =>
      if (v =? value)%Z then root
      else
        match findNode left_ value with
        | null => findNode right_ value
        | found => found
        end
  end.

Fixpoint getTreeDepth (root : tree) : nat :=
  match root with
  | null => 0
  | TreeNode _ left_ right_ =>
      (1 + Nat.max (getTreeDepth left_) (getTreeDepth right_))%nat
  end.

(** An edge [{ parent, child }]. *)
Record Edge := { parent : tree; child : tree }.

Fixpoint getAllEdges_traverse (node : tree) (edges : list Edge) : list Edge :=
  match node with
  | null => edges
  | TreeNode _ left_ right_ =>
      let edges :=
        match left_ with
        | null => edges
        | TreeNode _ _ _ =>
            getAllEdges_traverse left_
              (edges ++ [{| parent := node; child := left_ |}])
        end in
      match right_ with
      | null => edges
      | TreeNode _ _ _ =>
          getAllEdges_traverse right_
            (edges ++ [{| parent := node; child := right_ |}])
      end
  end.

Definition getAllEdges (root : tree) : list Edge := getAllEdges_traverse root [].

(** What [getAllEdges] finds through one child slot of [node]: nothing for an
    absent child, else the edge to the child followed by the edges below it. *)
Definition edgesTo (node sub : tree) : list Edge :=
  match sub with
  | null => []
  | TreeNode _ _ _ => {| parent := node; child := sub |} :: getAllEdges sub
  end.

(** Each edge joins a node to its left or to its right child, which is
    present. *)
Definition edge_ok (e : Edge) : Prop :=
  child e <> null /\
  match parent e with
  | null => False
  | TreeNode _ left_ right_ => child e = left_ \/ child e = right_
  end.

(* ================================================================== *)
(** ** Traversal generators ([src/traversal-generators.js])             *)
(* ================================================================== *)

Record Lines := {
  FUNCTION_ENTRY : Z;
  NULL_CHECK : Z;
  RECURSE_LEFT_LINE : Z;
  PROCESS : Z;
  RECURSE_RIGHT_LINE : Z;
  FUNCTION_EXIT : Z
}.

Definition INORDER_LINES : Lines :=
  {| FUNCTION_ENTRY := 1; NULL_CHECK := 2; RECURSE_LEFT_LINE := 3;
     PROCESS := 4; RECURSE_RIGHT_LINE := 5; FUNCTION_EXIT := 6 |}.

Definition PREORDER_LINES : Lines :=
  {| FUNCTION_ENTRY := 1; NULL_CHECK := 2; PROCESS := 3;
     RECURSE_LEFT_LINE := 4; RECURSE_RIGHT_LINE := 5; FUNCTION_EXIT := 6 |}.

Definition POSTORDER_LINES : Lines :=
  {| FUNCTION_ENTRY := 1; NULL_CHECK := 2; RECURSE_LEFT_LINE := 3;
     RECURSE_RIGHT_LINE := 4; PROCESS := 5; FUNCTION_EXIT := 6 |}.

(** [steps.push(x)] *)
Definition push {A} (steps : list A) (x : A) : list A := steps ++ [x].

Module InorderGenerator.

Fixpoint _traverse (node : tree) (steps : list ExecutionStep)
  : list ExecutionStep :=
  match node with
  | null =>
      let steps := push steps (ExecutionStep.call None (FUNCTION_ENTRY INORDER_LINES)) in
      let steps := push steps (ExecutionStep.checkNull None (NULL_CHECK INORDER_LINES)) in
      push steps (ExecutionStep.return_ None (NULL_CHECK INORDER_LINES) true)
  | TreeNode value left_ right_ =>
      let nodeValue := Some value in
      let steps := push steps (ExecutionStep.call nodeValue (FUNCTION_ENTRY INORDER_LINES)) in
      let steps := push steps (ExecutionStep.checkNull nodeValue (NULL_CHECK INORDER_LINES)) in
      let steps := push steps (ExecutionStep.recurseLeft nodeValue (RECURSE_LEFT_LINE INORDER_LINES)) in
      let steps := _traverse left_ steps in
      let steps := push steps (ExecutionStep.processNode nodeValue (PROCESS INORDER_LINES)) in
      let steps := push steps (ExecutionStep.recurseRight nodeValue (RECURSE_RIGHT_LINE INORDER_LINES)) in
      let steps := _traverse right_ steps in
      push steps (ExecutionStep.return_ nodeValue (FUNCTION_EXIT INORDER_LINES) false)
  end.

Definition generateSteps (root : tree) : list ExecutionStep :=
  _traverse root [].

End InorderGenerator.

Module PreorderGenerator.

Fixpoint _traverse (node : tree) (steps : list ExecutionStep)
  : list ExecutionStep :=
  match node with
  | null =>
      let steps := push steps (ExecutionStep.call None (FUNCTION_ENTRY PREORDER_LINES)) in
      let steps := push steps (ExecutionStep.checkNull None (NULL_CHECK PREORDER_LINES)) in
      push steps (ExecutionStep.return_ None (NULL_CHECK PREORDER_LINES) true)
  | TreeNode value left_ right_ =>
      let nodeValue := Some value in
      let steps := push steps (ExecutionStep.call nodeValue (FUNCTION_ENTRY PREORDER_LINES)) in
      let steps := push steps (ExecutionStep.checkNull nodeValue (NULL_CHECK PREORDER_LINES)) in
      let steps := push steps (ExecutionStep.processNode nodeValue (PROCESS PREORDER_LINES)) in
      let steps := push steps (ExecutionStep.recurseLeft nodeValue (RECURSE_LEFT_LINE PREORDER_LINES)) in
      let steps := _traverse left_ steps in
      let steps := push steps (ExecutionStep.recurseRight nodeValue (RECURSE_RIGHT_LINE PREORDER_LINES)) in
      let steps := _traverse right_ steps in
      push steps (ExecutionStep.return_ nodeValue (FUNCTION_EXIT PREORDER_LINES) false)
  end.

Definition generateSteps (root : tree) : list ExecutionStep :=
  _traverse root [].

End PreorderGenerator.

Module PostorderGenerator.

Fixpoint _traverse (node : tree) (steps : list ExecutionStep)
  : list ExecutionStep :=
  match node with
  | null =>
      let steps := push steps (ExecutionStep.call None (FUNCTION_ENTRY POSTORDER_LINES)) in
      let steps := push steps (ExecutionStep.checkNull None (NULL_CHECK POSTORDER_LINES)) in
      push steps (ExecutionStep.return_ None (NULL_CHECK POSTORDER_LINES) true)
  | TreeNode value left_ right_ =>
      let nodeValue := Some value in
      let steps := push steps (ExecutionStep.call nodeValue (FUNCTION_ENTRY POSTORDER_LINES)) in
      let steps := push steps (ExecutionStep.checkNull nodeValue (NULL_CHECK POSTORDER_LINES)) in
      let steps := push steps (ExecutionStep.recurseLeft nodeValue (RECURSE_LEFT_LINE POSTORDER_LINES)) in
      let steps := _traverse left_ steps in
      let steps := push steps (ExecutionStep.recurseRight nodeValue (RECURSE_RIGHT_LINE POSTORDER_LINES)) in
      let steps := _traverse right_ steps in
      let steps := push steps (ExecutionStep.processNode nodeValue (PROCESS POSTORDER_LINES)) in
      push steps (ExecutionStep.return_ nodeValue (FUNCTION_EXIT POSTORDER_LINES) false)
  end.

Definition generateSteps (root : tree) : list ExecutionStep :=
  _traverse root [].

End PostorderGenerator.

(** The three generator classes have no fields; an instance is its class. *)
Inductive Generator := InorderGen | PreorderGen | PostorderGen.

Definition getTraversalGenerator (type : string) : Generator :=
  if String.eqb type "preorder" then PreorderGen
  else if String.eqb type "postorder" then PostorderGen
  else if String.eqb type "inorder" then InorderGen
  else InorderGen.

Definition generateSteps (generator : Generator) (root : tree)
  : list ExecutionStep :=
  match generator with
  | InorderGen => InorderGenerator.generateSteps root
  | PreorderGen => PreorderGenerator.generateSteps root
  | PostorderGen => PostorderGenerator.generateSteps root
  end.

(* ================================================================== *)
(** ** State manager ([src/state-manager.js])                           *)
(* ================================================================== *)

Record AppState := {
  currentStepIndex : Z;
  callStack : list StackFrame;
  nodeStates : gmap Z NodeState;
  highlightedLine : Z;
  traversalType : string;
  isPlaying : bool;
  animationSpeed : Z;
  traversalOutput : list Z
}.

Definition createInitialState : AppState :=
  {| currentStepIndex := -1;
     callStack := [];
     nodeStates := ∅;
     highlightedLine := 0;
     traversalType := "inorder";
     isPlaying := false;
     animationSpeed := 500;
     traversalOutput := [] |}.

(** [new Map(m)] and [[...a]] build a new collection with the same content. *)
Definition cloneState (state : AppState) : AppState :=
  {| currentStepIndex := currentStepIndex state;
     callStack := map StackFrame.spread (callStack state);
     nodeStates := nodeStates state;
     highlightedLine := highlightedLine state;
     traversalType := traversalType state;
     isPlaying := isPlaying state;
     animationSpeed := animationSpeed state;
     traversalOutput := traversalOutput state |}.

(** The loop over the call stack: it runs over the indices of [state1]'s
    stack, after the lengths were found equal. *)
Fixpoint callStacksEqual (cs1 cs2 : list StackFrame) : bool :=
  match cs1, cs2 with
  | f1 :: cs1, f2 :: cs2 =>
      if negb (String.eqb (StackFrame.functionName f1) (StackFrame.functionName f2))
         || negb (bool_decide (StackFrame.nodeValue f1 = StackFrame.nodeValue f2))
      then false
      else callStacksEqual cs1 cs2
  | _, _ => true
  end.

Fixpoint outputsEqual (o1 o2 : list Z) : bool :=
  match o1, o2 with
  | v1 :: o1, v2 :: o2 => if negb (v1 =? v2)%Z then false else outputsEqual o1 o2
  | _, _ => true
  end.

(** [for (const [key, value] of state1.nodeStates)
       if (state2.nodeStates.get(key) !== value) return false;] *)
Definition nodeStatesEqual (m1 m2 : gmap Z NodeState) : bool :=
  forallb (fun kv => bool_decide (m2 !! kv.1 = Some kv.2)) (map_to_list m1).

Definition statesEqual (state1 state2 : AppState) : bool :=
  if negb (currentStepIndex state1 =? currentStepIndex state2)%Z then false
  else if negb (highlightedLine state1 =? highlightedLine state2)%Z then false
  else if negb (String.eqb (traversalType state1) (traversalType state2)) then false
  else if negb (Bool.eqb (isPlaying state1) (isPlaying state2)) then false
  else if negb (animationSpeed state1 =? animationSpeed state2)%Z then false
  else if negb (length (callStack state1) =? length (callStack state2))%nat then false
  else if negb (size (nodeStates state1) =? size (nodeStates state2))%nat then false
  else if negb (length (traversalOutput state1) =? length (traversalOutput state2))%nat then false
  else if negb (callStacksEqual (callStack state1) (callStack state2)) then false
  else if negb (nodeStatesEqual (nodeStates state1) (nodeStates state2)) then false
  else if negb (outputsEqual (traversalOutput state1) (traversalOutput state2)) then false
  else true.

(** The object given to [setState]: each field is present or missing. *)
Record Partial := {
  p_currentStepIndex : option Z;
  p_callStack : option (list StackFrame);
  p_nodeStates : option (gmap Z NodeState);
  p_highlightedLine : option Z;
  p_traversalType : option string;
  p_isPlaying : option bool;
  p_animationSpeed : option Z;
  p_traversalOutput : option (list Z)
}.

(** A whole state used as the argument of [setState]. *)
Definition whole (state : AppState) : Partial :=
  {| p_currentStepIndex := Some (currentStepIndex state);
     p_callStack := Some (callStack state);
     p_nodeStates := Some (nodeStates state);
     p_highlightedLine := Some (highlightedLine state);
     p_traversalType := Some (traversalType state);
     p_isPlaying := Some (isPlaying state);
     p_animationSpeed := Some (animationSpeed state);
     p_traversalOutput := Some (traversalOutput state) |}.

Record StateManager := {
  _state : AppState;
  _history : list AppState
}.

Module SM.

Definition constructor : StateManager :=
  {| _state := createInitialState; _history := [] |}.

Definition getState (sm : StateManager) : AppState := cloneState (_state sm).

Definition setState (newState : Partial) (sm : StateManager) : StateManager :=
  let old := _state sm in
  {| _state :=
       {| currentStepIndex := default (currentStepIndex old) (p_currentStepIndex newState);
          highlightedLine := default (highlightedLine old) (p_highlightedLine newState);
          traversalType := default (traversalType old) (p_traversalType newState);
          isPlaying := default (isPlaying old) (p_isPlaying newState);
          animationSpeed := default (animationSpeed old) (p_animationSpeed newState);
          callStack :=
            match p_callStack newState with
            | Some cs => map StackFrame.spread cs
            | None => callStack old
            end;
          nodeStates :=
            match p_nodeStates newState with
            | Some m => m
            | None => nodeStates old
            end;
          traversalOutput :=
            match p_traversalOutput newState with
            | Some o => o
            | None => traversalOutput old
            end |};
     _history := _history sm |}.

Definition pushHistory (sm : StateManager) : StateManager :=
  {| _state := _state sm;
     _history := push (_history sm) (cloneState (_state sm)) |}.

(** Returns the popped snapshot ([None] for [null]) and the manager. *)
Definition popHistory (sm : StateManager) : option AppState * StateManager :=
  if (length (_history sm) =? 0)%nat then (None, sm)
  else (last (_history sm),
        {| _state := _state sm; _history := removelast (_history sm) |}).

Definition clearHistory (sm : StateManager) : StateManager :=
  {| _state := _state sm; _history := [] |}.

Definition getHistoryLength (sm : StateManager) : nat := length (_history sm).

Definition reset (sm : StateManager) : StateManager :=
  {| _state := createInitialState; _history := [] |}.

Definition setStepIndex (index : Z) : StateManager -> StateManager :=
  setState {| p_currentStepIndex := Some index; p_callStack := None;
              p_nodeStates := None; p_highlightedLine := None;
              p_traversalType := None; p_isPlaying := None;
              p_animationSpeed := None; p_traversalOutput := None |}.

Definition setHighlightedLine (line : Z) : StateManager -> StateManager :=
  setState {| p_currentStepIndex := None; p_callStack := None;
              p_nodeStates := None; p_highlightedLine := Some line;
              p_traversalType := None; p_isPlaying := None;
              p_animationSpeed := None; p_traversalOutput := None |}.

Definition setTraversalType (type : string) : StateManager -> StateManager :=
  setState {| p_currentStepIndex := None; p_callStack := None;
              p_nodeStates := None; p_highlightedLine := None;
              p_traversalType := Some type; p_isPlaying := None;
              p_animationSpeed := None; p_traversalOutput := None |}.

Definition setPlaying (isPlaying : bool) : StateManager -> StateManager :=
  setState {| p_currentStepIndex := None; p_callStack := None;
              p_nodeStates := None; p_highlightedLine := None;
              p_traversalType := None; p_isPlaying := Some isPlaying;
              p_animationSpeed := None; p_traversalOutput := None |}.

Definition setAnimationSpeed (speed : Z) : StateManager -> StateManager :=
  setState {| p_currentStepIndex := None; p_callStack := None;
              p_nodeStates := None; p_highlightedLine := None;
              p_traversalType := None; p_isPlaying := None;
              p_animationSpeed := Some speed; p_traversalOutput := None |}.

Definition setCallStack (newStack : list StackFrame) : StateManager -> StateManager :=
  setState {| p_currentStepIndex := None; p_callStack := Some newStack;
              p_nodeStates := None; p_highlightedLine := None;
              p_traversalType := None; p_isPlaying := None;
              p_animationSpeed := None; p_traversalOutput := None |}.

Definition setNodeStates (m : gmap Z NodeState) : StateManager -> StateManager :=
  setState {| p_currentStepIndex := None; p_callStack := None;
              p_nodeStates := Some m; p_highlightedLine := None;
              p_traversalType := None; p_isPlaying := None;
              p_animationSpeed := None; p_traversalOutput := None |}.

Definition setOutput (o : list Z) : StateManager -> StateManager :=
  setState {| p_currentStepIndex := None; p_callStack := None;
              p_nodeStates := None; p_highlightedLine := None;
              p_traversalType := None; p_isPlaying := None;
              p_animationSpeed := None; p_traversalOutput := Some o |}.

Definition pushCallStack (frame : StackFrame) (sm : StateManager) : StateManager :=
  let newStack := callStack (_state sm) ++ [StackFrame.spread frame] in
  setCallStack newStack sm.

(** The popped frame is not used by the engine; only the manager is kept. *)
Definition popCallStack (sm : StateManager) : StateManager :=
  if (length (callStack (_state sm)) =? 0)%nat then sm
  else
    let newStack := removelast (callStack (_state sm)) in
    setCallStack newStack sm.

Definition setNodeState (nodeValue : Z) (state : NodeState)
           (sm : StateManager) : StateManager :=
  let newNodeStates := <[nodeValue := state]> (nodeStates (_state sm)) in
  setNodeStates newNodeStates sm.

Definition resetNodeStates (nodeValues : list Z) (sm : StateManager) : StateManager :=
  let newNodeStates :=
    foldl (fun m value => <[value := UNVISITED]> m) (∅ : gmap Z NodeState) nodeValues in
  setNodeStates newNodeStates sm.

Definition addToOutput (value : Z) (sm : StateManager) : StateManager :=
  let newOutput := traversalOutput (_state sm) ++ [value] in
  setOutput newOutput sm.

Definition clearOutput : StateManager -> StateManager := setOutput [].

End SM.

(* ================================================================== *)
(** ** Execution engine ([src/execution-engine.js])                     *)
(* ================================================================== *)

Record ExecutionEngine := {
  _stateManager : StateManager;
  _tree : tree;
  _steps : list ExecutionStep;
  _playIntervalId : option unit
}.

(** How a call of an engine method ends: with a boolean, or with the
    [TypeError] of reading a property of [undefined]. *)
Inductive completion := Return (b : bool) | TypeError.

#[global] Instance completion_eq_dec : EqDecision completion.
Proof. solve_decision. Defined.

(** [a[i]] for a number [i]: [None] is [undefined]. *)
Definition array_get {A} (a : list A) (i : Z) : option A :=
  if decide (0 <= i) then a !! Z.to_nat i else None.

Module Engine.

Definition with_manager (sm : StateManager) (e : ExecutionEngine) : ExecutionEngine :=
  {| _stateManager := sm; _tree := _tree e; _steps := _steps e;
     _playIntervalId := _playIntervalId e |}.

(** [constructor(tree = null)]: [tree || createDefaultTree()]. *)
Definition constructor (tree : tree) : ExecutionEngine :=
  {| _stateManager := SM.constructor;
     _tree := match tree with null => createDefaultTree | _ => tree end;
     _steps := [];
     _playIntervalId := None |}.

Definition getState (e : ExecutionEngine) : AppState :=
  SM.getState (_stateManager e).

Definition getSteps (e : ExecutionEngine) : list ExecutionStep := _steps e.

Definition getTotalSteps (e : ExecutionEngine) : Z := Z.of_nat (length (_steps e)).

Definition getCurrentStepIndex (e : ExecutionEngine) : Z :=
  currentStepIndex (getState e).

Definition getTraversalType (e : ExecutionEngine) : string :=
  traversalType (getState e).

Definition isAtStart (e : ExecutionEngine) : bool :=
  (currentStepIndex (getState e) <? 0)%Z.

Definition isAtEnd (e : ExecutionEngine) : bool :=
  (currentStepIndex (getState e) >=? getTotalSteps e - 1)%Z.

Definition getCurrentStep (e : ExecutionEngine) : option ExecutionStep :=
  let state := getState e in
  if (currentStepIndex state <? 0)%Z
     || (currentStepIndex state >=? Z.of_nat (length (_steps e)))%Z
  then None
  else array_get (_steps e) (currentStepIndex state).

Definition pause (e : ExecutionEngine) : ExecutionEngine :=
  {| _stateManager := SM.setPlaying false (_stateManager e);
     _tree := _tree e; _steps := _steps e;
     _playIntervalId := None |}.

Definition play (e : ExecutionEngine) : ExecutionEngine :=
  match _playIntervalId e with
  | Some _ => e
  | None =>
      {| _stateManager := SM.setPlaying true (_stateManager e);
         _tree := _tree e; _steps := _steps e;
         _playIntervalId := Some tt |}
  end.

Definition setSpeed (ms : Z) (e : ExecutionEngine) : ExecutionEngine :=
  let e := with_manager (SM.setAnimationSpeed ms (_stateManager e)) e in
  if isPlaying (getState e) then play (pause e) else e.

Definition initialize (type : string) (e : ExecutionEngine) : ExecutionEngine :=
  let e := pause e in
  let generator := getTraversalGenerator type in
  let steps := generateSteps generator (_tree e) in
  let sm := SM.reset (_stateManager e) in
  let sm := SM.setTraversalType type sm in
  let nodeValues := getAllNodes (_tree e) in
  let sm := SM.resetNodeStates nodeValues sm in
  {| _stateManager := sm; _tree := _tree e; _steps := steps;
     _playIntervalId := _playIntervalId e |}.

Definition _getFunctionName (type : string) : string :=
  if String.eqb type "preorder" then "preOrder"
  else if String.eqb type "postorder" then "postOrder"
  else if String.eqb type "inorder" then "inOrder"
  else "inOrder".

Definition _applyStep (step : ExecutionStep) (stepIndex : Z)
           (sm : StateManager) : StateManager :=
  let sm := SM.setStepIndex stepIndex sm in
  let sm := SM.setHighlightedLine (ExecutionStep.codeLine step) sm in
  let sm :=
    match ExecutionStep.stackAction step with
    | PUSH =>
        let traversalType := traversalType (SM.getState sm) in
        let functionName := _getFunctionName traversalType in
        let frame :=
          StackFrame.new functionName (ExecutionStep.nodeValue step)
            ("line " +:+ pretty (ExecutionStep.codeLine step)) in
        SM.pushCallStack frame sm
    | POP => SM.popCallStack sm
    | NONE => sm
    end in
  let sm :=
    match ExecutionStep.nodeValue step with
    | Some nodeValue => SM.setNodeState nodeValue (ExecutionStep.nodeState step) sm
    | None => sm
    end in
  match ExecutionStep.type step, ExecutionStep.nodeValue step with
  | PROCESS_NODE, Some nodeValue => SM.addToOutput nodeValue sm
  | _, _ => sm
  end.

(** When [this._steps[nextIndex]] is [undefined], [_applyStep] has set the
    step index before reading [step.codeLine] throws. *)
Definition nextStep (e : ExecutionEngine) : completion * ExecutionEngine :=
  let state := getState e in
  let nextIndex := currentStepIndex state + 1 in
  if (nextIndex >=? Z.of_nat (length (_steps e)))%Z then (Return false, e)
  else
    let sm := SM.pushHistory (_stateManager e) in
    match array_get (_steps e) nextIndex with
    | Some step => (Return true, with_manager (_applyStep step nextIndex sm) e)
    | None => (TypeError, with_manager (SM.setStepIndex nextIndex sm) e)
    end.

Definition previousStep (e : ExecutionEngine) : completion * ExecutionEngine :=
  let state := getState e in
  if (currentStepIndex state <? 0)%Z then (Return false, e)
  else
    match SM.popHistory (_stateManager e) with
    | (Some previousState, sm) =>
        (Return true, with_manager (SM.setState (whole previousState) sm) e)
    | (None, sm) => (Return false, with_manager sm e)
    end.

Definition reset (e : ExecutionEngine) : ExecutionEngine :=
  let e := pause e in
  let sm := SM.reset (_stateManager e) in
  let state := SM.getState sm in
  let nodeValues := getAllNodes (_tree e) in
  let sm := SM.resetNodeStates nodeValues sm in
  with_manager sm e.

End Engine.

(** [n] calls of a stepping method in a row, each of which returns [true]. *)
Fixpoint succeed (op : ExecutionEngine -> completion * ExecutionEngine)
         (n : nat) (e : ExecutionEngine) : option ExecutionEngine :=
  match n with
  | O => Some e
  | S n =>
      match op e with
      | (Return true, e') => succeed op n e'
      | _ => None
      end
  end.

(** A stepping operation of the engine, and a run of such operations that
    records how each call ended. *)
Inductive stepOp := Next | Prev.

Definition doOp (op : stepOp) : ExecutionEngine -> completion * ExecutionEngine :=
  match op with
  | Next => Engine.nextStep
  | Prev => Engine.previousStep
  end.

Fixpoint run (ops : list stepOp) (e : ExecutionEngine)
  : list completion * ExecutionEngine :=
  match ops with
  | [] => ([], e)
  | op :: ops =>
      let (c, e1) := doOp op e in
      let (cs, e2) := run ops e1 in
      (c :: cs, e2)
  end.

(** The engines a client can hold: built by the constructor, then changed
    by the public methods, a timer tick being a [nextStep] followed, when it
    returns [false], by [pause].  [initialize] may start from any engine. *)
Inductive reachable : ExecutionEngine -> Prop :=
  | reach_constructor tree : reachable (Engine.constructor tree)
  | reach_initialize type e : reachable (Engine.initialize type e)
  | reach_nextStep e : reachable e -> reachable (Engine.nextStep e).2
  | reach_previousStep e : reachable e -> reachable (Engine.previousStep e).2
  | reach_reset e : reachable e -> reachable (Engine.reset e)
  | reach_play e : reachable e -> reachable (Engine.play e)
  | reach_pause e : reachable e -> reachable (Engine.pause e)
  | reach_setSpeed ms e : reachable e -> reachable (Engine.setSpeed ms e).

(* ================================================================== *)
(** ** Observers used by the statements                                 *)
(* ================================================================== *)

(** Number of steps of a given type in a sequence. *)
Definition countType (ty : StepType) (steps : list ExecutionStep) : nat :=
  length (filter (fun s => ExecutionStep.type s = ty) steps).

(** What a stack action adds to the size of the call stack. *)
Definition stackDelta (a : StackAction) : Z :=
  match a with PUSH => 1 | POP => -1 | NONE => 0 end.

(** Pushes minus pops over a sequence of steps. *)
Fixpoint netStack (steps : list ExecutionStep) : Z :=
  match steps with
  | [] => 0
  | s :: steps => stackDelta (ExecutionStep.stackAction s) + netStack steps
  end.

(** The running net never drops below zero and ends at zero. *)
Definition balanced (steps : list ExecutionStep) : Prop :=
  netStack steps = 0 /\ forall k : nat, 0 <= netStack (take k steps).

(** The invariant of the step record stated in the data model. *)
Definition step_consistent (s : ExecutionStep) : Prop :=
  (ExecutionStep.stackAction s = PUSH <-> ExecutionStep.type s = CALL) /\
  (ExecutionStep.stackAction s = POP <-> ExecutionStep.type s = RETURN) /\
  (ExecutionStep.type s <> CALL -> ExecutionStep.type s <> RETURN ->
   ExecutionStep.stackAction s = NONE).

(** The output once [nextStep] has returned [true] for each generated step
    of a fresh engine on [root]; [None] if one of the calls does not. *)
Definition outputAfterAllSteps (type : string) (root : tree) : option (list Z) :=
  let e := Engine.initialize type (Engine.constructor root) in
  e' ← succeed Engine.nextStep (length (Engine.getSteps e)) e;
  if Engine.isAtEnd e' then Some (traversalOutput (Engine.getState e')) else None.

(** [value] is the value of a node of the tree. *)
Fixpoint occurs (value : Z) (root : tree) : Prop :=
  match root with
  | null => False
  | TreeNode v left_ right_ => value = v \/ occurs value left_ \/ occurs value right_
  end.

(** A state with its traversal type replaced. *)
Definition withTraversalType (type : string) (state : AppState) : AppState :=
  {| currentStepIndex := currentStepIndex state;
     callStack := callStack state;
     nodeStates := nodeStates state;
     highlightedLine := highlightedLine state;
     traversalType := type;
     isPlaying := isPlaying state;
     animationSpeed := animationSpeed state;
     traversalOutput := traversalOutput state |}.

(** A state manager, and an engine, whose live state and history snapshots
    all carry [type]. *)
Definition retypeSM (type : string) (sm : StateManager) : StateManager :=
  {| _state := withTraversalType type (_state sm);
     _history := map (withTraversalType type) (_history sm) |}.

Definition retype (type : string) (e : ExecutionEngine) : ExecutionEngine :=
  Engine.with_manager (retypeSM type (_stateManager e)) e.

(** The live state and every snapshot carry [type], and every frame they
    hold is named after it. *)
Definition state_typed (type : string) (state : AppState) : Prop :=
  traversalType state = type /\
  Forall (fun f => StackFrame.functionName f = Engine._getFunctionName type)
         (callStack state).

Definition typed (type : string) (e : ExecutionEngine) : Prop :=
  state_typed type (_state (_stateManager e)) /\
  Forall (state_typed type) (_history (_stateManager e)).

(** The step index of the live state and of every snapshot is a position
    of the step sequence, or -1. *)
Definition index_ok (steps : list ExecutionStep) (state : AppState) : Prop :=
  -1 <= currentStepIndex state < Z.of_nat (length steps).

Definition engine_ok (e : ExecutionEngine) : Prop :=
  index_ok (_steps e) (_state (_stateManager e)) /\
  Forall (index_ok (_steps e)) (_history (_stateManager e)).

(* ================================================================== *)
(** ** The generators in append form                                    *)
(* ================================================================== *)

(* ================================================================== *)
(** ** Stack renderer (the stack-renderer module, after the tree model in
       [src/tree-model.js])                                              *)
(* ================================================================== *)

#[global] Instance StackFrame_eq_dec : EqDecision StackFrame.
Proof. solve_decision. Defined.

(** The [stack] field of a [StackRenderer] and the methods that read and
    write it.  [render] only writes the container's [innerHTML] (and nothing
    when no container is set), so it is left out; the animated variants wait
    on a timer and are not modelled. *)
Module StackRenderer.

(** [[...this.stack]] *)
Definition getStack (stack : list StackFrame) : list StackFrame := stack.

Definition getStackSize (stack : list StackFrame) : nat := length stack.

Definition isEmpty (stack : list StackFrame) : bool := (length stack =? 0)%nat.

Definition getTopFrame (stack : list StackFrame) : option StackFrame :=
  if (length stack =? 0)%nat then None else last stack.

Definition getFrameAt (stack : list StackFrame) (index : Z) : option StackFrame :=
  if (index <? 0)%Z || (index >=? Z.of_nat (length stack))%Z then None
  else array_get stack index.

Definition push (stack : list StackFrame) (frame : StackFrame) : list StackFrame :=
  stack ++ [frame].

(** The popped frame ([None] for [null]) and the stack left. *)
Definition pop (stack : list StackFrame) : option StackFrame * list StackFrame :=
  if (length stack =? 0)%nat then (None, stack)
  else (last stack, removelast stack).

Definition clear (stack : list StackFrame) : list StackFrame := [].

(** [[...this.stack].reverse()] *)
Definition getVisualOrder (stack : list StackFrame) : list StackFrame := rev stack.

(** [visualOrder[0] === this.stack[this.stack.length - 1]] compares two
    references to frames of the same array. *)
Definition isVisualOrderLIFO (stack : list StackFrame) : bool :=
  if (length stack <=? 1)%nat then true
  else bool_decide (head (getVisualOrder stack) = last stack).

(** [this.stack.find(f => f.nodeValue === nodeValue) || null] *)
Definition findFrameByNodeValue (stack : list StackFrame) (nodeValue : option Z)
  : option StackFrame :=
  List.find (fun f => bool_decide (StackFrame.nodeValue f = nodeValue)) stack.

Definition hasFrameWithNodeValue (stack : list StackFrame) (nodeValue : option Z)
  : bool :=
  existsb (fun f => bool_decide (StackFrame.nodeValue f = nodeValue)) stack.

(** [String(text).replace(/c/g, by)] on the text as a sequence of bytes: the
    four characters replaced are ASCII, and no byte of a multi-byte UTF-8
    character equals one of them. *)
Fixpoint replaceAll (c : Ascii.ascii) (by_ : string) (text : string) : string :=
  match text with
  | EmptyString => EmptyString
  | String a rest =>
      if Ascii.eqb a c then by_ +:+ replaceAll c by_ rest
      else String a (replaceAll c by_ rest)
  end.

(** The characters [&], [<], [>] and the double quote. *)
Definition char_amp : Ascii.ascii := Ascii.ascii_of_nat 38.
Definition char_lt : Ascii.ascii := Ascii.ascii_of_nat 60.
Definition char_gt : Ascii.ascii := Ascii.ascii_of_nat 62.
Definition char_quot : Ascii.ascii := Ascii.ascii_of_nat 34.

Definition escapeHtml (text : string) : string :=
  replaceAll char_quot "&quot;"
    (replaceAll char_gt "&gt;"
       (replaceAll char_lt "&lt;"
          (replaceAll char_amp "&amp;" text))).

End StackRenderer.

(** [n] calls of [pop]: what each returned, and the stack left. *)
Fixpoint popTimes (n : nat) (stack : list StackFrame)
  : list (option StackFrame) * list StackFrame :=
  match n with
  | O => ([], stack)
  | S n =>
      let (popped, stack) := StackRenderer.pop stack in
      let (rest, stack) := popTimes n stack in
      (popped :: rest, stack)
  end.

(** The characters of a string. *)
Fixpoint chars (text : string) : list Ascii.ascii :=
  match text with
  | EmptyString => []
  | String a rest => a :: chars rest
  end.

(* ================================================================== *)
(** ** Code renderer ([src/code-renderer.js])                           *)
(* ================================================================== *)

(** A token [{ type, text }] of a line of a listing. *)
Record Token := { tokenType : string; tokenText : string }.

(** A line [{ text, tokens }] of a listing. *)
Record CodeLine := { lineText : string; lineTokens : list Token }.

Definition keyword (text : string) : Token := {| tokenType := "keyword"; tokenText := text |}.
Definition plain (text : string) : Token := {| tokenType := "text"; tokenText := text |}.
Definition method (text : string) : Token := {| tokenType := "method"; tokenText := text |}.
Definition type_ (text : string) : Token := {| tokenType := "type"; tokenText := text |}.
Definition variable (text : string) : Token := {| tokenType := "variable"; tokenText := text |}.

Definition code_line (text : string) (tokens : list Token) : CodeLine :=
  {| lineText := text; lineTokens := tokens |}.

Definition TEMPLATE_inorder : list CodeLine :=
  [
    code_line "void inOrder(Node node) {"
      [keyword "void"; plain " "; method "inOrder"; plain "("; type_ "Node"; plain " ";
       variable "node"; plain ") {"];
    code_line "    if (node == null) return;"
      [plain "    "; keyword "if"; plain " ("; variable "node"; plain " == ";
       keyword "null"; plain ") "; keyword "return"; plain ";"];
    code_line "    inOrder(node.left);"
      [plain "    "; method "inOrder"; plain "("; variable "node"; plain ".left);"];
    code_line "    print(node.val);"
      [plain "    "; method "print"; plain "("; variable "node"; plain ".val);"];
    code_line "    inOrder(node.right);"
      [plain "    "; method "inOrder"; plain "("; variable "node"; plain ".right);"];
    code_line "}"
      [plain "}"]
  ].

Definition TEMPLATE_preorder : list CodeLine :=
  [
    code_line "void preOrder(Node node) {"
      [keyword "void"; plain " "; method "preOrder"; plain "("; type_ "Node"; plain " ";
       variable "node"; plain ") {"];
    code_line "    if (node == null) return;"
      [plain "    "; keyword "if"; plain " ("; variable "node"; plain " == ";
       keyword "null"; plain ") "; keyword "return"; plain ";"];
    code_line "    print(node.val);"
      [plain "    "; method "print"; plain "("; variable "node"; plain ".val);"];
    code_line "    preOrder(node.left);"
      [plain "    "; method "preOrder"; plain "("; variable "node"; plain ".left);"];
    code_line "    preOrder(node.right);"
      [plain "    "; method "preOrder"; plain "("; variable "node"; plain ".right);"];
    code_line "}"
      [plain "}"]
  ].

Definition TEMPLATE_postorder : list CodeLine :=
  [
    code_line "void postOrder(Node node) {"
      [keyword "void"; plain " "; method "postOrder"; plain "("; type_ "Node"; plain " ";
       variable "node"; plain ") {"];
    code_line "    if (node == null) return;"
      [plain "    "; keyword "if"; plain " ("; variable "node"; plain " == ";
       keyword "null"; plain ") "; keyword "return"; plain ";"];
    code_line "    postOrder(node.left);"
      [plain "    "; method "postOrder"; plain "("; variable "node"; plain ".left);"];
    code_line "    postOrder(node.right);"
      [plain "    "; method "postOrder"; plain "("; variable "node"; plain ".right);"];
    code_line "    print(node.val);"
      [plain "    "; method "print"; plain "("; variable "node"; plain ".val);"];
    code_line "}"
      [plain "}"]
  ].

(** [CODE_TEMPLATES[type]] for the own properties of the object; [None] is
    [undefined].  A name inherited from [Object.prototype] is outside this
    model: every theorem reads the table at a valid traversal type. *)
Definition CODE_TEMPLATES (type : string) : option (list CodeLine) :=
  if String.eqb type "inorder" then Some TEMPLATE_inorder
  else if String.eqb type "preorder" then Some TEMPLATE_preorder
  else if String.eqb type "postorder" then Some TEMPLATE_postorder
  else None.

Definition TRAVERSAL_TYPES : list string := ["inorder"; "preorder"; "postorder"].

(** [CODE_TEMPLATES[type] || CODE_TEMPLATES.inorder] *)
Definition getCodeTemplate (type : string) : list CodeLine :=
  default TEMPLATE_inorder (CODE_TEMPLATES type).

Definition getLineCount (type : string) : Z :=
  Z.of_nat (length (getCodeTemplate type)).

(** [lineNumber] is an integer here, so [Number.isInteger] holds. *)
Definition isValidLineNumber (type : string) (lineNumber : Z) : bool :=
  let lineCount := getLineCount type in
  (lineNumber >=? 1)%Z && (lineNumber <=? lineCount)%Z.

(** [TRAVERSAL_TYPES.includes(type)] *)
Definition isValidTraversalType (type : string) : bool :=
  existsb (String.eqb type) TRAVERSAL_TYPES.

Record CodeRenderer := {
  currentType : string;
  rendererLine : Z
}.

Module Renderer.

Definition constructor : CodeRenderer :=
  {| currentType := "inorder"; rendererLine := 0 |}.

Definition getTemplate (r : CodeRenderer) : list CodeLine :=
  getCodeTemplate (currentType r).

Definition setTraversalType (type : string) (r : CodeRenderer) : CodeRenderer :=
  if isValidTraversalType type
  then {| currentType := type; rendererLine := 0 |}
  else r.

Definition getTraversalType (r : CodeRenderer) : string := currentType r.

Definition highlightLine (lineNumber : Z) (r : CodeRenderer) : CodeRenderer :=
  if (lineNumber =? 0)%Z || isValidLineNumber (currentType r) lineNumber
  then {| currentType := currentType r; rendererLine := lineNumber |}
  else r.

Definition clearHighlight (r : CodeRenderer) : CodeRenderer :=
  {| currentType := currentType r; rendererLine := 0 |}.

Definition getHighlightedLine (r : CodeRenderer) : Z := rendererLine r.

Definition getLineCount (r : CodeRenderer) : Z := getLineCount (currentType r).

Definition isLineHighlighted (lineNumber : Z) (r : CodeRenderer) : bool :=
  (rendererLine r =? lineNumber)%Z.

(** [template[lineNumber - 1].text], [None] for [null]. *)
Definition getLineText (lineNumber : Z) (r : CodeRenderer) : option string :=
  let template := getTemplate r in
  if (lineNumber >=? 1)%Z && (lineNumber <=? Z.of_nat (length template))%Z
  then lineText <$> array_get template (lineNumber - 1)
  else None.

End Renderer.

(** The calls that change a code renderer. *)
Inductive rendererOp :=
  | SetTraversalType (type : string)
  | HighlightLine (lineNumber : Z)
  | ClearHighlight.

Definition doRendererOp (r : CodeRenderer) (op : rendererOp) : CodeRenderer :=
  match op with
  | SetTraversalType type => Renderer.setTraversalType type r
  | HighlightLine lineNumber => Renderer.highlightLine lineNumber r
  | ClearHighlight => Renderer.clearHighlight r
  end.

(** The line of the listing a step stands for, in the listing of the
    function [functionName]. *)
Definition listingLine (functionName : string) (step : ExecutionStep) : string :=
  match ExecutionStep.type step with
  | CALL => "void " +:+ functionName +:+ "(Node node) {"
  | CHECK_NULL => "    if (node == null) return;"
  | PROCESS_NODE => "    print(node.val);"
  | RECURSE_LEFT => "    " +:+ functionName +:+ "(node.left);"
  | RECURSE_RIGHT => "    " +:+ functionName +:+ "(node.right);"
  | RETURN =>
      match ExecutionStep.nodeValue step with
      | None => "    if (node == null) return;"
      | Some _ => "}"
      end
  end.

(** What a code renderer keeps true: its type is one of the three, and
    its highlighted line is 0 or a line of the listing. *)
Definition renderer_ok (r : CodeRenderer) : Prop :=
  isValidTraversalType (currentType r) = true /\ 0 <= rendererLine r <= 6.

(** The traversal type a generator stands for. *)
Definition generatorType (g : Generator) : string :=
  match g with
  | InorderGen => "inorder"
  | PreorderGen => "preorder"
  | PostorderGen => "postorder"
  end.

(** A renderer set to [type] shows for the step the line the step stands
    for, and accepts the step's line as the line to highlight. *)
Definition step_listed (type : string) (step : ExecutionStep) : Prop :=
  let r := Renderer.setTraversalType type Renderer.constructor in
  Renderer.getLineText (ExecutionStep.codeLine step) r
  = Some (listingLine (Engine._getFunctionName type) step) /\
  Renderer.getHighlightedLine (Renderer.highlightLine (ExecutionStep.codeLine step) r)
  = ExecutionStep.codeLine step.

(** The texts of the tokens of a line, joined. *)
Definition joinTokens (line : CodeLine) : string :=
  foldr (fun t rest => tokenText t +:+ rest) "" (lineTokens line).

(* ================================================================== *)
(** ** Reference traversals and what a replay computes                  *)
(* ================================================================== *)

(** The three depth-first orders, as textbook definitions. *)
Fixpoint inorder (root : tree) : list Z :=
  match root with
  | null => []
  | TreeNode value left_ right_ => inorder left_ ++ [value] ++ inorder right_
  end.

Fixpoint preorder (root : tree) : list Z :=
  match root with
  | null => []
  | TreeNode value left_ right_ => [value] ++ preorder left_ ++ preorder right_
  end.

Fixpoint postorder (root : tree) : list Z :=
  match root with
  | null => []
  | TreeNode value left_ right_ => postorder left_ ++ postorder right_ ++ [value]
  end.

Definition traversal (g : Generator) (root : tree) : list Z :=
  match g with
  | InorderGen => inorder root
  | PreorderGen => preorder root
  | PostorderGen => postorder root
  end.

(** The values of the PROCESS_NODE steps of a sequence, in order. *)
Definition processed (step : ExecutionStep) : option Z :=
  match ExecutionStep.type step with
  | PROCESS_NODE => ExecutionStep.nodeValue step
  | _ => None
  end.

Definition processedValues (steps : list ExecutionStep) : list Z :=
  omap processed steps.

(** The node states once the steps were applied in order to [m]. *)
Definition markNode (m : gmap Z NodeState) (step : ExecutionStep) : gmap Z NodeState :=
  match ExecutionStep.nodeValue step with
  | Some value => <[value := ExecutionStep.nodeState step]> m
  | None => m
  end.

Definition nodeStatesAfter (m : gmap Z NodeState) (steps : list ExecutionStep)
  : gmap Z NodeState :=
  foldl markNode m steps.

(** The call stack once the steps were applied in order to [cs], frames
    being named [functionName]. *)
Definition moveStack (functionName : string) (cs : list StackFrame)
           (step : ExecutionStep) : list StackFrame :=
  match ExecutionStep.stackAction step with
  | PUSH =>
      cs ++ [StackFrame.new functionName (ExecutionStep.nodeValue step)
               ("line " +:+ pretty (ExecutionStep.codeLine step))]
  | POP => removelast cs
  | NONE => cs
  end.

Definition stackAfter (functionName : string) (cs : list StackFrame)
           (steps : list ExecutionStep) : list StackFrame :=
  foldl (moveStack functionName) cs steps.

(** What every step of a generated sequence satisfies: its line is one of
    the six lines of the listing, its stack action matches its type, a
    PROCESS_NODE step carries a value, and a step without a value is a CALL,
    CHECK_NULL or RETURN that leaves the node state UNVISITED. *)
Definition generated_step_ok (s : ExecutionStep) : Prop :=
  1 <= ExecutionStep.codeLine s <= 6 /\
  step_consistent s /\
  (ExecutionStep.type s = PROCESS_NODE -> is_Some (ExecutionStep.nodeValue s)) /\
  (ExecutionStep.nodeValue s = None ->
   ExecutionStep.nodeState s = UNVISITED /\
   (ExecutionStep.type s = CALL \/ ExecutionStep.type s = CHECK_NULL
    \/ ExecutionStep.type s = RETURN)).

(** No prefix of the sequence has more than [d] pushes over its pops. *)
Definition peak (d : Z) (steps : list ExecutionStep) : Prop :=
  forall k : nat, netStack (take k steps) <= d.

(** Applying the steps leaves every node of [root] FINISHED and touches no
    other entry of the node states. *)
Definition finishes (root : tree) (steps : list ExecutionStep) : Prop :=
  forall (m : gmap Z NodeState) (value : Z),
    nodeStatesAfter m steps !! value
    = if decide (value ∈ getAllNodes root) then Some FINISHED else m !! value.

(** A state with its call stack replaced. *)
Definition withCallStack (cs : list StackFrame) (state : AppState) : AppState :=
  {| currentStepIndex := currentStepIndex state;
     callStack := cs;
     nodeStates := nodeStates state;
     highlightedLine := highlightedLine state;
     traversalType := traversalType state;
     isPlaying := isPlaying state;
     animationSpeed := animationSpeed state;
     traversalOutput := traversalOutput state |}.

(** What [statesEqual] reads of a frame: its function name and node value,
    not its return address. *)
Definition frameKey (f : StackFrame) : string * option Z :=
  (StackFrame.functionName f, StackFrame.nodeValue f).

(** [setState(s); pushHistory()] for each state of a list in turn. *)
Definition pushAll (states : list AppState) (sm : StateManager) : StateManager :=
  foldl (fun sm s => SM.pushHistory (SM.setState (whole s) sm)) sm states.

(** [n] calls of [popHistory]: what each returned, and the manager left. *)
Fixpoint popN (n : nat) (sm : StateManager) : list (option AppState) * StateManager :=
  match n with
  | O => ([], sm)
  | S n =>
      let (popped, sm) := SM.popHistory sm in
      let (rest, sm) := popN n sm in
      (popped :: rest, sm)
  end.

(** The steps at positions [from], ..., [from + n - 1]. *)
Definition slice {A} (a : list A) (from : Z) (n : nat) : list A :=
  take n (drop (Z.to_nat from) a).

(** The history of an engine at step index [i] holds one snapshot per
    forward step taken: their indices are -1, 0, ..., i - 1. *)
Definition history_ok (e : ExecutionEngine) : Prop :=
  map currentStepIndex (_history (_stateManager e))
  = seqZ (-1) (currentStepIndex (_state (_stateManager e)) + 1).

(** [s] is [t] or a node below it. *)
Fixpoint subtree (s t : tree) : Prop :=
  s = t \/
  match t with
  | null => False
  | TreeNode _ left_ right_ => subtree s left_ \/ subtree s right_
  end.

(** Moves a non-empty accumulator out of every call of a traversal on [t]. *)
Ltac flush IH t :=
  repeat match goal with
    | |- context [?f t ?acc] =>
        lazymatch acc with
        | [] => fail
        | _ => rewrite (IH acc)
        end
    end.

(** Unfolds [_applyStep] on a step split into its fields. *)
Ltac apply_step_cases step :=
  destruct step as [ty nv line sa ns descr];
  unfold Engine._applyStep, SM.popCallStack, SM.pushCallStack; simpl;
  destruct sa, nv, ty; simpl;
  repeat match goal with
    | |- context [(length ?cs =? 0)%nat] => destruct (length cs =? 0)%nat; simpl
    end.

Section GeneratorEquations.

Lemma inorder_traverse_app (node : tree) (steps : list ExecutionStep) :
  InorderGenerator._traverse node steps
  = steps ++ InorderGenerator._traverse node [].
Proof.
  revert steps.
  induction node as [|value l IHl r IHr]; intros steps; simpl; unfold push.
  - by rewrite <- !app_assoc.
  - flush IHr r; flush IHl l. simpl. by rewrite <- !app_assoc.
Qed.

Lemma preorder_traverse_app (node : tree) (steps : list ExecutionStep) :
  PreorderGenerator._traverse node steps
  = steps ++ PreorderGenerator._traverse node [].
Proof.
  revert steps.
  induction node as [|value l IHl r IHr]; intros steps; simpl; unfold push.
  - by rewrite <- !app_assoc.
  - flush IHr r; flush IHl l. simpl. by rewrite <- !app_assoc.
Qed.

Lemma postorder_traverse_app (node : tree) (steps : list ExecutionStep) :
  PostorderGenerator._traverse node steps
  = steps ++ PostorderGenerator._traverse node [].
Proof.
  revert steps.
  induction node as [|value l IHl r IHr]; intros steps; simpl; unfold push.
  - by rewrite <- !app_assoc.
  - flush IHr r; flush IHl l. simpl. by rewrite <- !app_assoc.
Qed.

Lemma inorder_node (value : Z) (l r : tree) :
  InorderGenerator.generateSteps (TreeNode value l r)
  = [ExecutionStep.call (Some value) 1;
     ExecutionStep.checkNull (Some value) 2;
     ExecutionStep.recurseLeft (Some value) 3]
    ++ InorderGenerator.generateSteps l
    ++ [ExecutionStep.processNode (Some value) 4;
        ExecutionStep.recurseRight (Some value) 5]
    ++ InorderGenerator.generateSteps r
    ++ [ExecutionStep.return_ (Some value) 6 false].
Proof.
  unfold InorderGenerator.generateSteps. simpl. unfold push.
  rewrite (inorder_traverse_app r), (inorder_traverse_app l).
  simpl. by rewrite <- !app_assoc.
Qed.

Lemma preorder_node (value : Z) (l r : tree) :
  PreorderGenerator.generateSteps (TreeNode value l r)
  = [ExecutionStep.call (Some value) 1;
     ExecutionStep.checkNull (Some value) 2;
     ExecutionStep.processNode (Some value) 3;
     ExecutionStep.recurseLeft (Some value) 4]
    ++ PreorderGenerator.generateSteps l
    ++ [ExecutionStep.recurseRight (Some value) 5]
    ++ PreorderGenerator.generateSteps r
    ++ [ExecutionStep.return_ (Some value) 6 false].
Proof.
  unfold PreorderGenerator.generateSteps. simpl. unfold push.
  rewrite (preorder_traverse_app r), (preorder_traverse_app l).
  simpl. by rewrite <- !app_assoc.
Qed.

Lemma postorder_node (value : Z) (l r : tree) :
  PostorderGenerator.generateSteps (TreeNode value l r)
  = [ExecutionStep.call (Some value) 1;
     ExecutionStep.checkNull (Some value) 2;
     ExecutionStep.recurseLeft (Some value) 3]
    ++ PostorderGenerator.generateSteps l
    ++ [ExecutionStep.recurseRight (Some value) 4]
    ++ PostorderGenerator.generateSteps r
    ++ [ExecutionStep.processNode (Some value) 5;
        ExecutionStep.return_ (Some value) 6 false].
Proof.
  unfold PostorderGenerator.generateSteps. simpl. unfold push.
  rewrite (postorder_traverse_app r), (postorder_traverse_app l).
  simpl. by rewrite <- !app_assoc.
Qed.

End GeneratorEquations.

(* ================================================================== *)
(** ** Step constructors                                                *)
(* ================================================================== *)

(** C8. Every step built by one of the six named constructors has
    stackAction PUSH exactly when its type is CALL, POP exactly when its type
    is RETURN, and NONE for every other type; and its nodeState follows the
    constructor's policy: call and checkNull give PROCESSING for a present
    node value and UNVISITED for an absent one, processNode gives VISITED,
    recurseLeft and recurseRight give PROCESSING, return gives FINISHED
    unless isNullReturn, in which case UNVISITED. *)
Theorem constructors_policy (nodeValue : option Z) (codeLine : Z) (isNullReturn : bool) :
  (step_consistent (ExecutionStep.call nodeValue codeLine) /\
   step_consistent (ExecutionStep.checkNull nodeValue codeLine) /\
   step_consistent (ExecutionStep.processNode nodeValue codeLine) /\
   step_consistent (ExecutionStep.recurseLeft nodeValue codeLine) /\
   step_consistent (ExecutionStep.recurseRight nodeValue codeLine) /\
   step_consistent (ExecutionStep.return_ nodeValue codeLine isNullReturn)) /\
  (ExecutionStep.nodeState (ExecutionStep.call nodeValue codeLine)
     = (if nodeValue is Some _ then PROCESSING else UNVISITED) /\
   ExecutionStep.nodeState (ExecutionStep.checkNull nodeValue codeLine)
     = (if nodeValue is Some _ then PROCESSING else UNVISITED) /\
   ExecutionStep.nodeState (ExecutionStep.processNode nodeValue codeLine) = VISITED /\
   ExecutionStep.nodeState (ExecutionStep.recurseLeft nodeValue codeLine) = PROCESSING /\
   ExecutionStep.nodeState (ExecutionStep.recurseRight nodeValue codeLine) = PROCESSING /\
   ExecutionStep.nodeState (ExecutionStep.return_ nodeValue codeLine isNullReturn)
     = (if isNullReturn then UNVISITED else FINISHED)) /\
  (ExecutionStep.type (ExecutionStep.call nodeValue codeLine) = CALL /\
   ExecutionStep.type (ExecutionStep.checkNull nodeValue codeLine) = CHECK_NULL /\
   ExecutionStep.type (ExecutionStep.processNode nodeValue codeLine) = PROCESS_NODE /\
   ExecutionStep.type (ExecutionStep.recurseLeft nodeValue codeLine) = RECURSE_LEFT /\
   ExecutionStep.type (ExecutionStep.recurseRight nodeValue codeLine) = RECURSE_RIGHT /\
   ExecutionStep.type (ExecutionStep.return_ nodeValue codeLine isNullReturn) = RETURN).
Proof.
  unfold step_consistent. split; [|split].
  - repeat split; simpl; intros; congruence.
  - destruct nodeValue; repeat split.
  - repeat split.
Qed.

(* ================================================================== *)
(** ** Counting and balance of the generated sequences                  *)
(* ================================================================== *)

Section Counting.

Lemma countType_app ty (l1 l2 : list ExecutionStep) :
  countType ty (l1 ++ l2) = (countType ty l1 + countType ty l2)%nat.
Proof. unfold countType. by rewrite filter_app, length_app. Qed.

Lemma netStack_app (l1 l2 : list ExecutionStep) :
  netStack (l1 ++ l2) = netStack l1 + netStack l2.
Proof. induction l1 as [|s l1 IH]; simpl; [done | rewrite IH; lia]. Qed.

Lemma balanced_nil : balanced [].
Proof. split; [done | intros k; by destruct k]. Qed.

Lemma balanced_app (l1 l2 : list ExecutionStep) :
  balanced l1 -> balanced l2 -> balanced (l1 ++ l2).
Proof.
  intros [H1 P1] [H2 P2]. split.
  - rewrite netStack_app. lia.
  - intros k. rewrite take_app, netStack_app.
    destruct (decide (k <= length l1)%nat) as [Hk|Hk].
    + replace (k - length l1)%nat with 0%nat by lia.
      rewrite take_0. simpl. specialize (P1 k). lia.
    + rewrite (take_ge l1) by lia.
      specialize (P2 (k - length l1)%nat). lia.
Qed.

Lemma balanced_neutral (s : ExecutionStep) :
  ExecutionStep.stackAction s = NONE -> balanced [s].
Proof.
  intros Hs. split; simpl; [rewrite Hs; done|].
  intros [|k]; simpl; [done|]. rewrite Hs, take_nil. done.
Qed.

(** A push, a balanced body, a pop. *)
Lemma balanced_wrap (c r : ExecutionStep) (body : list ExecutionStep) :
  ExecutionStep.stackAction c = PUSH ->
  ExecutionStep.stackAction r = POP ->
  balanced body ->
  balanced (c :: body ++ [r]).
Proof.
  intros Hc Hr [Hb Pb]. split.
  - simpl. rewrite netStack_app, Hc, Hb. simpl. rewrite Hr. done.
  - intros [|k]; simpl; [done|].
    rewrite Hc, take_app, netStack_app. specialize (Pb k).
    assert (-1 <= netStack (take (k - length body) [r])).
    { destruct (k - length body)%nat; simpl; [lia|]. rewrite Hr, take_nil. simpl. lia. }
    simpl. lia.
Qed.

Lemma balanced_neutrals (l : list ExecutionStep) :
  Forall (fun s => ExecutionStep.stackAction s = NONE) l -> balanced l.
Proof.
  induction 1 as [|s l Hs _ IH]; [apply balanced_nil|].
  apply (balanced_app [s] l); [by apply balanced_neutral | done].
Qed.

(** The shape of one activation: the call, then neutral steps around the
    two recursive sub-sequences, then the return. *)
Lemma balanced_frame (c r : ExecutionStep) (pre mid post L R : list ExecutionStep) :
  ExecutionStep.stackAction c = PUSH ->
  ExecutionStep.stackAction r = POP ->
  Forall (fun s => ExecutionStep.stackAction s = NONE) (pre ++ mid ++ post) ->
  balanced L -> balanced R ->
  balanced ([c] ++ pre ++ L ++ mid ++ R ++ post ++ [r]).
Proof.
  intros Hc Hr Hn HL HR.
  apply Forall_app in Hn as [Hpre Hn]. apply Forall_app in Hn as [Hmid Hpost].
  replace ([c] ++ pre ++ L ++ mid ++ R ++ post ++ [r])
    with (c :: (pre ++ L ++ mid ++ R ++ post) ++ [r])
    by (simpl; by rewrite <- !app_assoc).
  apply balanced_wrap; [done..|].
  repeat apply balanced_app; auto using balanced_neutrals.
Qed.

Lemma null_balanced (line1 line2 : Z) :
  balanced [ExecutionStep.call None line1;
            ExecutionStep.checkNull None line2;
            ExecutionStep.return_ None line2 true].
Proof.
  apply (balanced_frame _ _ [_] [] [] [] []); try done.
  - by repeat constructor.
  - apply balanced_nil.
  - apply balanced_nil.
Qed.

Lemma inorder_balanced (root : tree) :
  balanced (InorderGenerator.generateSteps root).
Proof.
  induction root as [|value l IHl r IHr]; [apply null_balanced|].
  rewrite inorder_node.
  apply (balanced_frame _ _ [_; _] [_; _] []); try done.
  by repeat constructor.
Qed.

Lemma preorder_balanced (root : tree) :
  balanced (PreorderGenerator.generateSteps root).
Proof.
  induction root as [|value l IHl r IHr]; [apply null_balanced|].
  rewrite preorder_node.
  apply (balanced_frame _ _ [_; _; _] [_] []); try done.
  by repeat constructor.
Qed.

Lemma postorder_balanced (root : tree) :
  balanced (PostorderGenerator.generateSteps root).
Proof.
  induction root as [|value l IHl r IHr]; [apply null_balanced|].
  rewrite postorder_node.
  apply (balanced_frame _ _ [_; _] [_] [_]); try done.
  by repeat constructor.
Qed.

Lemma generated_balanced (g : Generator) (root : tree) :
  balanced (generateSteps g root).
Proof.
  destruct g; [apply inorder_balanced|apply preorder_balanced|apply postorder_balanced].
Qed.

(** Calls and returns: one of each per node and per absent child. *)
Lemma generated_counts (g : Generator) (root : tree) :
  countType CALL (generateSteps g root) = (2 * countNodes root + 1)%nat /\
  countType RETURN (generateSteps g root) = (2 * countNodes root + 1)%nat.
Proof.
  destruct g; simpl;
    (induction root as [|value l [IHl1 IHl2] r [IHr1 IHr2]]; [by split|]);
    [rewrite inorder_node|rewrite preorder_node|rewrite postorder_node];
    rewrite !countType_app, ?IHl1, ?IHl2, ?IHr1, ?IHr2;
    (split; [change (countType CALL [_; _; _]) with 1%nat
            |change (countType RETURN [_; _; _]) with 0%nat]);
    cbn [countNodes]; unfold countType; simpl; lia.
Qed.

End Counting.

(** C1. For every tree (the absent root included) and every traversal order,
    the generated sequence has as many CALL steps as RETURN steps; on every
    prefix the number of PUSH actions minus the number of POP actions is not
    negative; and over the whole sequence it is exactly 0. *)
Theorem stack_balance (g : Generator) (root : tree) :
  countType CALL (generateSteps g root) = countType RETURN (generateSteps g root) /\
  (forall k : nat, 0 <= netStack (take k (generateSteps g root))) /\
  netStack (generateSteps g root) = 0.
Proof.
  destruct (generated_counts g root) as [Hc Hr].
  destruct (generated_balanced g root) as [Hn Hp].
  repeat split; [congruence | exact Hp | exact Hn].
Qed.

(** C4. For a tree with N real nodes and every traversal order, the generated
    sequence has exactly 2N + 1 CALL steps and exactly 2N + 1 RETURN steps;
    for the default tree of 7 nodes both counts are 15. *)
Theorem call_return_counts (g : Generator) (root : tree) :
  countType CALL (generateSteps g root) = (2 * countNodes root + 1)%nat /\
  countType RETURN (generateSteps g root) = (2 * countNodes root + 1)%nat /\
  countNodes createDefaultTree = 7%nat /\
  countType CALL (generateSteps g createDefaultTree) = 15%nat /\
  countType RETURN (generateSteps g createDefaultTree) = 15%nat.
Proof.
  destruct (generated_counts g root) as [Hc Hr].
  destruct (generated_counts g createDefaultTree) as [Hc' Hr'].
  repeat split; done.
Qed.

(* ================================================================== *)
(** ** Running the engine on the default tree                           *)
(* ================================================================== *)

(** C3. On the default tree (root 4, children 2 and 6, leaves 1, 3, 5, 7),
    once every generated step has been applied by nextStep, traversalOutput
    is [1,2,3,4,5,6,7] for inorder, [4,2,1,3,6,5,7] for preorder and
    [1,3,2,5,7,6,4] for postorder. *)
Theorem default_tree_outputs :
  createDefaultTree
    = TreeNode 4 (TreeNode 2 (TreeNode 1 null null) (TreeNode 3 null null))
                 (TreeNode 6 (TreeNode 5 null null) (TreeNode 7 null null)) /\
  outputAfterAllSteps "inorder" createDefaultTree = Some [1; 2; 3; 4; 5; 6; 7] /\
  outputAfterAllSteps "preorder" createDefaultTree = Some [4; 2; 1; 3; 6; 5; 7] /\
  outputAfterAllSteps "postorder" createDefaultTree = Some [1; 3; 2; 5; 7; 6; 4].
Proof. repeat split; vm_compute; reflexivity. Qed.

(* ================================================================== *)
(** ** State manager: copies and equality                               *)
(* ================================================================== *)

Section Copies.

Lemma spread_id (frame : StackFrame) : StackFrame.spread frame = frame.
Proof. by destruct frame. Qed.

Lemma map_spread (cs : list StackFrame) : map StackFrame.spread cs = cs.
Proof. induction cs as [|f cs IH]; simpl; [done | by rewrite spread_id, IH]. Qed.

Lemma cloneState_id (state : AppState) : cloneState state = state.
Proof. destruct state. unfold cloneState. simpl. by rewrite map_spread. Qed.

Lemma getState_state (e : ExecutionEngine) :
  Engine.getState e = _state (_stateManager e).
Proof. apply cloneState_id. Qed.

Lemma setState_whole (state : AppState) (sm : StateManager) :
  SM.setState (whole state) sm = {| _state := state; _history := _history sm |}.
Proof. destruct state. unfold SM.setState, whole. simpl. by rewrite map_spread. Qed.

Lemma callStacksEqual_refl (cs : list StackFrame) : callStacksEqual cs cs = true.
Proof.
  induction cs as [|f cs IH]; simpl; [done|].
  by rewrite String.eqb_refl, bool_decide_eq_true_2.
Qed.

Lemma outputsEqual_refl (o : list Z) : outputsEqual o o = true.
Proof. induction o as [|v o IH]; simpl; [done | by rewrite Z.eqb_refl]. Qed.

Lemma nodeStatesEqual_refl (m : gmap Z NodeState) : nodeStatesEqual m m = true.
Proof.
  unfold nodeStatesEqual. apply forallb_forall. intros [k v] Hin.
  apply bool_decide_eq_true_2. simpl.
  apply elem_of_map_to_list. by apply list_elem_of_In.
Qed.

Lemma statesEqual_refl (state : AppState) : statesEqual state state = true.
Proof.
  unfold statesEqual.
  rewrite !Z.eqb_refl, String.eqb_refl, Bool.eqb_reflx, !Nat.eqb_refl.
  by rewrite callStacksEqual_refl, nodeStatesEqual_refl, outputsEqual_refl.
Qed.

End Copies.

(* ================================================================== *)
(** ** One step of the engine                                           *)
(* ================================================================== *)

Section ApplyStep.

Variables (step : ExecutionStep) (stepIndex : Z) (sm : StateManager).

Lemma applyStep_history :
  _history (Engine._applyStep step stepIndex sm) = _history sm.
Proof. apply_step_cases step; reflexivity. Qed.

Lemma applyStep_index :
  currentStepIndex (_state (Engine._applyStep step stepIndex sm)) = stepIndex.
Proof. apply_step_cases step; reflexivity. Qed.

Lemma applyStep_highlightedLine :
  highlightedLine (_state (Engine._applyStep step stepIndex sm))
  = ExecutionStep.codeLine step.
Proof. apply_step_cases step; reflexivity. Qed.

Lemma applyStep_traversalType :
  traversalType (_state (Engine._applyStep step stepIndex sm))
  = traversalType (_state sm).
Proof. apply_step_cases step; reflexivity. Qed.

Lemma applyStep_nodeState (nodeValue : Z) :
  ExecutionStep.nodeValue step = Some nodeValue ->
  nodeStates (_state (Engine._applyStep step stepIndex sm)) !! nodeValue
  = Some (ExecutionStep.nodeState step).
Proof.
  apply_step_cases step; intros [= ->]; apply lookup_insert_eq.
Qed.

(** The call stack after the step: a frame named after the live traversal
    type is pushed, the top frame is popped, or nothing changes. *)
Lemma applyStep_callStack :
  callStack (_state (Engine._applyStep step stepIndex sm))
  = match ExecutionStep.stackAction step with
    | PUSH =>
        callStack (_state sm)
          ++ [StackFrame.new (Engine._getFunctionName (traversalType (_state sm)))
                (ExecutionStep.nodeValue step)
                ("line " +:+ pretty (ExecutionStep.codeLine step))]
    | POP => removelast (callStack (_state sm))
    | NONE => callStack (_state sm)
    end.
Proof.
  destruct step as [ty nv line sa ns descr].
  unfold Engine._applyStep, SM.popCallStack, SM.pushCallStack; simpl.
  destruct sa, nv, ty; simpl; rewrite ?map_spread; try reflexivity;
    (destruct (callStack (_state sm)) as [|f cs] eqn:Hcs; simpl;
     [by rewrite ?Hcs | by rewrite map_spread]).
Qed.

End ApplyStep.

Section ArrayGet.

Lemma array_get_Some {A} (a : list A) (i : Z) :
  0 <= i < Z.of_nat (length a) -> exists x, array_get a i = Some x.
Proof.
  intros Hi. unfold array_get. rewrite decide_True by lia.
  apply lookup_lt_is_Some. lia.
Qed.

Lemma array_get_range {A} (a : list A) (i : Z) (x : A) :
  array_get a i = Some x -> 0 <= i < Z.of_nat (length a).
Proof.
  unfold array_get. case_decide; [|done].
  intros Hx%lookup_lt_Some. lia.
Qed.

End ArrayGet.

Section NextStep.

Variable e : ExecutionEngine.

(** [nextStep] at the end of the sequence: nothing changes. *)
Lemma nextStep_at_end :
  Z.of_nat (length (_steps e)) <= (currentStepIndex (_state (_stateManager e)) + 1) ->
  Engine.nextStep e = (Return false, e).
Proof.
  intros Hend. unfold Engine.nextStep. rewrite getState_state.
  by rewrite (proj2 (Z.geb_le _ _)) by lia.
Qed.

(** [nextStep] inside the sequence: a snapshot is pushed and the step at
    the next index is applied. *)
Lemma nextStep_inside :
  0 <= (currentStepIndex (_state (_stateManager e)) + 1) < Z.of_nat (length (_steps e)) ->
  exists step,
    array_get (_steps e) (currentStepIndex (_state (_stateManager e)) + 1) = Some step /\
    Engine.nextStep e
    = (Return true,
       Engine.with_manager
         (Engine._applyStep step (currentStepIndex (_state (_stateManager e)) + 1) (SM.pushHistory (_stateManager e))) e).
Proof.
  intros Hin. destruct (array_get_Some (_steps e) (currentStepIndex (_state (_stateManager e)) + 1) Hin) as [step Hstep].
  exists step. split; [done|].
  unfold Engine.nextStep. rewrite getState_state.
  destruct ((currentStepIndex (_state (_stateManager e)) + 1) >=? _) eqn:Hge; [apply Z.geb_le in Hge; lia|].
  by rewrite Hstep.
Qed.

(** What a successful [nextStep] did. *)
Lemma nextStep_true (e' : ExecutionEngine) :
  Engine.nextStep e = (Return true, e') ->
  exists step,
    array_get (_steps e) (currentStepIndex (_state (_stateManager e)) + 1) = Some step /\
    e' = Engine.with_manager
           (Engine._applyStep step (currentStepIndex (_state (_stateManager e)) + 1) (SM.pushHistory (_stateManager e))) e.
Proof.
  unfold Engine.nextStep. rewrite getState_state.
  destruct ((currentStepIndex (_state (_stateManager e)) + 1) >=? _); [intros [=]|].
  destruct (array_get (_steps e) (currentStepIndex (_state (_stateManager e)) + 1)) as [step|]; intros [=].
  by exists step.
Qed.

End NextStep.

Section PreviousStep.

Lemma with_manager_same (e : ExecutionEngine) :
  Engine.with_manager (_stateManager e) e = e.
Proof. by destruct e. Qed.

Lemma previousStep_at_start (e : ExecutionEngine) :
  currentStepIndex (_state (_stateManager e)) < 0 ->
  Engine.previousStep e = (Return false, e).
Proof.
  intros Hneg. unfold Engine.previousStep. rewrite getState_state.
  by rewrite (proj2 (Z.ltb_lt _ _)) by lia.
Qed.

Lemma previousStep_no_history (e : ExecutionEngine) :
  _history (_stateManager e) = [] ->
  Engine.previousStep e = (Return false, e).
Proof.
  intros Hnil. unfold Engine.previousStep, SM.popHistory.
  rewrite getState_state, Hnil. simpl.
  destruct (_ <? 0); by rewrite ?with_manager_same.
Qed.

(** With a snapshot on top of the history and a step index that is not
    negative, [previousStep] installs the snapshot and drops it. *)
Lemma previousStep_pop (e : ExecutionEngine) (h : list AppState) (s : AppState) :
  0 <= currentStepIndex (_state (_stateManager e)) ->
  _history (_stateManager e) = h ++ [s] ->
  Engine.previousStep e
  = (Return true, Engine.with_manager {| _state := s; _history := h |} e).
Proof.
  intros Hpos Hh. unfold Engine.previousStep, SM.popHistory.
  rewrite getState_state, Hh.
  destruct (_ <? 0) eqn:Hlt; [apply Z.ltb_lt in Hlt; lia|].
  rewrite length_app, Nat.add_comm. simpl.
  rewrite last_snoc, removelast_last.
  by rewrite setState_whole.
Qed.

(** A successful [nextStep] is undone by [previousStep]: the engine is
    back in the state, and with the history, it had before. *)
Lemma nextStep_undo (e e' : ExecutionEngine) :
  Engine.nextStep e = (Return true, e') ->
  Engine.previousStep e' = (Return true, e).
Proof.
  intros Hnext. destruct (nextStep_true e e' Hnext) as (step & Hstep & ->).
  apply array_get_range in Hstep.
  rewrite (previousStep_pop _ (_history (_stateManager e))
                            (_state (_stateManager e))).
  - f_equal. destruct e as [[s h] t st p]. reflexivity.
  - simpl. rewrite applyStep_index. lia.
  - simpl. rewrite applyStep_history. simpl. unfold push.
    by rewrite cloneState_id.
Qed.

Lemma succeed_snoc op (n : nat) (e e1 e2 : ExecutionEngine) :
  succeed op n e = Some e1 ->
  op e1 = (Return true, e2) ->
  succeed op (S n) e = Some e2.
Proof.
  revert e. induction n as [|n IH]; intros e.
  - intros [= ->] Hop. simpl. by rewrite Hop.
  - intros Hn Hop. change (succeed op (S n) e) with
      (match op e with (Return true, e') => succeed op n e' | _ => None end) in Hn.
    change (succeed op (S (S n)) e) with
      (match op e with (Return true, e') => succeed op (S n) e' | _ => None end).
    destruct (op e) as [[[|]|] e0]; try done. by apply IH.
Qed.

Lemma nextSteps_undo (n : nat) (e e' : ExecutionEngine) :
  succeed Engine.nextStep n e = Some e' ->
  succeed Engine.previousStep n e' = Some e.
Proof.
  revert e. induction n as [|n IH]; intros e.
  - by intros [= ->].
  - simpl. destruct (Engine.nextStep e) as [[[|]|] e1] eqn:Hnext; try done.
    intros Hn. apply (succeed_snoc _ _ _ e1); [by apply IH|].
    by apply nextStep_undo.
Qed.

(** As long as steps remain, [nextStep] keeps returning [true]. *)
Lemma nextSteps_available (n : nat) (e : ExecutionEngine) :
  -1 <= currentStepIndex (_state (_stateManager e)) ->
  currentStepIndex (_state (_stateManager e)) + Z.of_nat n
    < Z.of_nat (length (_steps e)) ->
  exists e',
    succeed Engine.nextStep n e = Some e' /\
    _steps e' = _steps e /\
    currentStepIndex (_state (_stateManager e'))
    = currentStepIndex (_state (_stateManager e)) + Z.of_nat n.
Proof.
  revert e. induction n as [|n IH]; intros e Hlo Hhi.
  - exists e. repeat split. lia.
  - destruct (nextStep_inside e) as (step & _ & Hnext); [lia|].
    simpl. rewrite Hnext.
    destruct (IH (Engine.with_manager
                    (Engine._applyStep step
                       (currentStepIndex (_state (_stateManager e)) + 1)
                       (SM.pushHistory (_stateManager e))) e))
      as (e' & Hrun & Hsteps & Hidx).
    + simpl. rewrite applyStep_index. lia.
    + simpl. rewrite applyStep_index. lia.
    + exists e'. split; [done|]. split; [done|].
      rewrite Hidx. simpl. rewrite applyStep_index. lia.
Qed.

(** A freshly initialized engine can take as many forward steps as there are
    generated steps. *)
Lemma initialized_can_step (type : string) (e0 : ExecutionEngine) (n : nat) :
  (n <= length (_steps (Engine.initialize type e0)))%nat ->
  exists e', succeed Engine.nextStep n (Engine.initialize type e0) = Some e'.
Proof.
  intros Hn.
  destruct (nextSteps_available n (Engine.initialize type e0)) as (e' & Hrun & _).
  - simpl. lia.
  - change (currentStepIndex (_state (_stateManager (Engine.initialize type e0))))
      with (-1). lia.
  - by exists e'.
Qed.

End PreviousStep.

(** C2. After N successful nextStep calls, N previousStep calls all succeed
    and leave a state that statesEqual finds equal to the state held before
    the first nextStep; the history is back to what it was as well. *)
Theorem undo_exactness (n : nat) (e e' : ExecutionEngine) :
  succeed Engine.nextStep n e = Some e' ->
  exists e'',
    succeed Engine.previousStep n e' = Some e'' /\
    statesEqual (Engine.getState e'') (Engine.getState e) = true /\
    _history (_stateManager e'') = _history (_stateManager e).
Proof.
  intros Hrun. exists e. split; [by apply nextSteps_undo|].
  split; [apply statesEqual_refl | reflexivity].
Qed.

(** The undo theorem at work: one step into the postorder run of the default
    tree, nine steps forward and nine back. *)
Lemma undo_exactness_witness :
  let e := Engine.initialize "postorder" (Engine.constructor createDefaultTree) in
  exists e1 e2,
    succeed Engine.nextStep 1 e = Some e1 /\
    succeed Engine.nextStep 9 e1 = Some e2 /\
    exists e'',
      succeed Engine.previousStep 9 e2 = Some e'' /\
      statesEqual (Engine.getState e'') (Engine.getState e1) = true /\
      _history (_stateManager e'') = _history (_stateManager e1).
Proof.
  intros e.
  destruct (succeed Engine.nextStep 1 e) as [e1|] eqn:H1; [|vm_compute in H1; discriminate].
  destruct (succeed Engine.nextStep 9 e1) as [e2|] eqn:H2.
  - exists e1, e2. split; [reflexivity|]. split; [exact H2|].
    exact (undo_exactness 9 e1 e2 H2).
  - exfalso. vm_compute in H1. injection H1 as <-. vm_compute in H2. discriminate.
Defined.

(* ================================================================== *)
(** ** The step index stays inside the step sequence                    *)
(* ================================================================== *)

Section IndexInvariant.

Lemma engine_ok_initialize (type : string) (e : ExecutionEngine) :
  engine_ok (Engine.initialize type e).
Proof. split; [split; simpl; lia | constructor]. Qed.

Lemma engine_ok_reset (e : ExecutionEngine) :
  engine_ok e -> engine_ok (Engine.reset e).
Proof. intros _. split; [split; simpl; lia | constructor]. Qed.

Lemma engine_ok_pause (e : ExecutionEngine) :
  engine_ok e -> engine_ok (Engine.pause e).
Proof. intros [Hs Hh]. by split. Qed.

Lemma engine_ok_play (e : ExecutionEngine) :
  engine_ok e -> engine_ok (Engine.play e).
Proof. intros [Hs Hh]. unfold Engine.play. destruct (_playIntervalId e); by split. Qed.

Lemma engine_ok_setSpeed (ms : Z) (e : ExecutionEngine) :
  engine_ok e -> engine_ok (Engine.setSpeed ms e).
Proof.
  intros [Hs Hh]. unfold Engine.setSpeed.
  destruct (isPlaying _); [apply engine_ok_play, engine_ok_pause|]; by split.
Qed.

Lemma engine_ok_nextStep (e : ExecutionEngine) :
  engine_ok e -> engine_ok (Engine.nextStep e).2.
Proof.
  intros [Hs Hh].
  destruct (decide (Z.of_nat (length (_steps e))
                    <= currentStepIndex (_state (_stateManager e)) + 1)) as [Hend|Hin].
  - by rewrite nextStep_at_end.
  - destruct (nextStep_inside e) as (step & _ & ->); [unfold index_ok in Hs; lia|].
    split; simpl.
    + unfold index_ok. rewrite applyStep_index. unfold index_ok in Hs. lia.
    + rewrite applyStep_history. simpl. unfold push.
      apply Forall_app. split; [done|]. rewrite cloneState_id. by constructor.
Qed.

Lemma engine_ok_previousStep (e : ExecutionEngine) :
  engine_ok e -> engine_ok (Engine.previousStep e).2.
Proof.
  intros [Hs Hh].
  destruct (decide (currentStepIndex (_state (_stateManager e)) < 0)) as [Hneg|Hpos].
  { by rewrite previousStep_at_start. }
  destruct (decide (_history (_stateManager e) = [])) as [Hnil|Hcons].
  { by rewrite previousStep_no_history. }
  destruct (exists_last Hcons) as (h0 & s0 & Hhist).
  rewrite (previousStep_pop e h0 s0) by (done || lia).
  rewrite Hhist in Hh. apply Forall_app in Hh as [Hh0 Hs0]. split; simpl; [|done].
  by inversion Hs0.
Qed.

Lemma engine_ok_constructor (root : tree) : engine_ok (Engine.constructor root).
Proof. split; [split; simpl; lia | constructor]. Qed.

(** Every reachable engine keeps its step index, and the index of every
    snapshot, between -1 and the last position. *)
Lemma reachable_ok (e : ExecutionEngine) : reachable e -> engine_ok e.
Proof.
  induction 1;
    eauto using engine_ok_constructor, engine_ok_initialize, engine_ok_nextStep,
      engine_ok_previousStep, engine_ok_reset, engine_ok_play, engine_ok_pause,
      engine_ok_setSpeed.
Qed.

End IndexInvariant.

(** C5. For every engine a client can hold, initialized or not yet: when the
    step index is at the last generated step, or the step sequence is empty,
    nextStep returns false and the engine (its whole state and its history)
    is unchanged; otherwise nextStep returns true and the new step index is
    the old one plus 1. *)
Theorem nextStep_boundary (e : ExecutionEngine) :
  reachable e ->
  (currentStepIndex (Engine.getState e) = Engine.getTotalSteps e - 1
   \/ Engine.getSteps e = [] ->
   Engine.nextStep e = (Return false, e)) /\
  (~ (currentStepIndex (Engine.getState e) = Engine.getTotalSteps e - 1
      \/ Engine.getSteps e = []) ->
   exists e',
     Engine.nextStep e = (Return true, e') /\
     currentStepIndex (Engine.getState e')
     = currentStepIndex (Engine.getState e) + 1).
Proof.
  intros [[Hlo Hhi] _]%reachable_ok.
  rewrite getState_state. unfold Engine.getTotalSteps, Engine.getSteps.
  split.
  - intros [Hlast|Hnil]; apply nextStep_at_end; [lia|].
    rewrite Hnil in *. simpl in *. lia.
  - intros Hnot.
    destruct (nextStep_inside e) as (step & _ & Hnext); [lia|].
    eexists. split; [exact Hnext|].
    rewrite getState_state. simpl. by rewrite applyStep_index.
Qed.

(** The boundary theorem on a freshly initialized preorder run. *)
Lemma nextStep_boundary_witness :
  let e := Engine.initialize "preorder" (Engine.constructor createDefaultTree) in
  reachable e /\
  exists e',
    Engine.nextStep e = (Return true, e') /\
    currentStepIndex (Engine.getState e')
    = currentStepIndex (Engine.getState e) + 1.
Proof.
  intros e. split; [apply reach_initialize|].
  apply (nextStep_boundary e (reach_initialize _ _)).
  vm_compute. intros [H|H]; discriminate H.
Defined.

(** C7. After a successful nextStep, highlightedLine is the codeLine of the
    step just applied (the step at the new index), and when that step has a
    node value, the nodeStates entry of that value is the step's nodeState. *)
Theorem step_synchronization (e e' : ExecutionEngine) :
  Engine.nextStep e = (Return true, e') ->
  exists step,
    array_get (Engine.getSteps e') (currentStepIndex (Engine.getState e')) = Some step /\
    array_get (Engine.getSteps e) (currentStepIndex (Engine.getState e) + 1) = Some step /\
    highlightedLine (Engine.getState e') = ExecutionStep.codeLine step /\
    forall nodeValue,
      ExecutionStep.nodeValue step = Some nodeValue ->
      nodeStates (Engine.getState e') !! nodeValue
      = Some (ExecutionStep.nodeState step).
Proof.
  intros Hnext. destruct (nextStep_true e e' Hnext) as (step & Hstep & ->).
  exists step. rewrite !getState_state. unfold Engine.getSteps. simpl.
  rewrite applyStep_index, applyStep_highlightedLine.
  repeat split; try done.
  intros nodeValue Hv. by apply applyStep_nodeState.
Qed.

(** The synchronization theorem on the first step of the inorder run. *)
Lemma step_synchronization_witness :
  let e := Engine.initialize "inorder" (Engine.constructor createDefaultTree) in
  Engine.nextStep e = (Return true, (Engine.nextStep e).2) /\
  exists step,
    array_get (Engine.getSteps (Engine.nextStep e).2)
              (currentStepIndex (Engine.getState (Engine.nextStep e).2)) = Some step /\
    array_get (Engine.getSteps e) (currentStepIndex (Engine.getState e) + 1) = Some step /\
    highlightedLine (Engine.getState (Engine.nextStep e).2) = ExecutionStep.codeLine step /\
    forall nodeValue,
      ExecutionStep.nodeValue step = Some nodeValue ->
      nodeStates (Engine.getState (Engine.nextStep e).2) !! nodeValue
      = Some (ExecutionStep.nodeState step).
Proof.
  intros e.
  assert (H : Engine.nextStep e = (Return true, (Engine.nextStep e).2))
    by (vm_compute; reflexivity).
  split; [exact H|].
  exact (step_synchronization e (Engine.nextStep e).2 H).
Defined.

(* ================================================================== *)
(** ** Reset                                                            *)
(* ================================================================== *)

Section Reset.

Lemma getAllNodes_traverse_app (node : tree) (nodes : list Z) :
  getAllNodes_traverse node nodes = nodes ++ getAllNodes_traverse node [].
Proof.
  revert nodes. induction node as [|value l IHl r IHr]; intros nodes; simpl.
  - by rewrite app_nil_r.
  - flush IHr r; flush IHl l. simpl. by rewrite <- !app_assoc.
Qed.

Lemma elem_of_getAllNodes (value : Z) (root : tree) :
  value ∈ getAllNodes root <-> occurs value root.
Proof.
  unfold getAllNodes. induction root as [|v l IHl r IHr]; simpl.
  - by rewrite elem_of_nil.
  - rewrite (getAllNodes_traverse_app r), (getAllNodes_traverse_app l).
    rewrite !elem_of_app, list_elem_of_singleton, IHl, IHr. tauto.
Qed.

Lemma seed_lookup (nodeValues : list Z) (m : gmap Z NodeState) (value : Z) :
  foldl (fun m v => <[v := UNVISITED]> m) m nodeValues !! value
  = if decide (value ∈ nodeValues) then Some UNVISITED else m !! value.
Proof.
  revert m. induction nodeValues as [|v vs IH]; intros m; cbn [foldl].
  - case_decide as Hin; [by apply elem_of_nil in Hin | done].
  - rewrite IH.
    destruct (decide (value ∈ vs)) as [Hvs|Hvs],
             (decide (value ∈ v :: vs)) as [Hin|Hin]; try done.
    + exfalso. apply Hin. by right.
    + apply elem_of_cons in Hin as [->|Hin]; [|done]. apply lookup_insert_eq.
    + apply lookup_insert_ne. intros ->. apply Hin. by left.
Qed.

Lemma resetNodeStates_lookup (nodeValues : list Z) (sm : StateManager) (value : Z) :
  nodeStates (_state (SM.resetNodeStates nodeValues sm)) !! value
  = if decide (value ∈ nodeValues) then Some UNVISITED else None.
Proof. simpl. by rewrite seed_lookup, lookup_empty. Qed.

End Reset.

(** C9. Whatever the engine went through, reset leaves step index -1, an
    empty call stack, UNVISITED for the value of every node of the tree (and
    no other entry in nodeStates), highlightedLine 0, an empty
    traversalOutput and an empty history, and keeps the tree and the
    generated step sequence. *)
Theorem reset_completeness (e : ExecutionEngine) :
  currentStepIndex (Engine.getState (Engine.reset e)) = -1 /\
  callStack (Engine.getState (Engine.reset e)) = [] /\
  (forall value, value ∈ getAllNodes (_tree e) ->
     nodeStates (Engine.getState (Engine.reset e)) !! value = Some UNVISITED) /\
  (forall value, occurs value (_tree e) <->
     nodeStates (Engine.getState (Engine.reset e)) !! value = Some UNVISITED) /\
  (forall value state,
     nodeStates (Engine.getState (Engine.reset e)) !! value = Some state ->
     state = UNVISITED) /\
  highlightedLine (Engine.getState (Engine.reset e)) = 0 /\
  traversalOutput (Engine.getState (Engine.reset e)) = [] /\
  _history (_stateManager (Engine.reset e)) = [] /\
  SM.getHistoryLength (_stateManager (Engine.reset e)) = 0%nat /\
  _tree (Engine.reset e) = _tree e /\
  _steps (Engine.reset e) = _steps e.
Proof.
  rewrite getState_state.
  assert (Hlook : forall value,
             nodeStates (_state (_stateManager (Engine.reset e))) !! value
             = if decide (value ∈ getAllNodes (_tree e))
               then Some UNVISITED else None).
  { intros value. apply (resetNodeStates_lookup (getAllNodes (_tree e))). }
  split; [reflexivity|]. split; [reflexivity|].
  split; [|split; [|split]].
  - intros value Hin. by rewrite Hlook, decide_True.
  - intros value. rewrite Hlook, <- elem_of_getAllNodes.
    case_decide; split; congruence.
  - intros value state. rewrite Hlook. case_decide; congruence.
  - repeat split; reflexivity.
Qed.

(* ================================================================== *)
(** ** The traversal type of the state and the names of the frames      *)
(* ================================================================== *)

Section Typed.

Lemma Forall_removelast {A} (P : A -> Prop) (l : list A) :
  Forall P l -> Forall P (removelast l).
Proof.
  induction 1 as [|x l Hx Hl IH]; simpl; [constructor|].
  destruct l; [constructor | by constructor].
Qed.

Lemma nextStep_negative (e : ExecutionEngine) :
  currentStepIndex (_state (_stateManager e)) + 1 < 0 ->
  Engine.nextStep e
  = (TypeError,
     Engine.with_manager
       (SM.setStepIndex (currentStepIndex (_state (_stateManager e)) + 1)
          (SM.pushHistory (_stateManager e))) e).
Proof.
  intros Hneg. unfold Engine.nextStep, array_get. rewrite getState_state.
  destruct (_ >=? _) eqn:Hge; [apply Z.geb_le in Hge; lia|].
  by rewrite decide_False by lia.
Qed.

Lemma state_typed_applyStep (type : string) (step : ExecutionStep)
      (stepIndex : Z) (sm : StateManager) :
  state_typed type (_state sm) ->
  state_typed type (_state (Engine._applyStep step stepIndex sm)).
Proof.
  intros [Hty Hcs]. split.
  - by rewrite applyStep_traversalType.
  - rewrite applyStep_callStack. destruct (ExecutionStep.stackAction step).
    + apply Forall_app. split; [done|]. constructor; [|constructor].
      simpl. by rewrite Hty.
    + by apply Forall_removelast.
    + done.
Qed.

Lemma typed_nextStep (type : string) (e : ExecutionEngine) :
  typed type e -> typed type (Engine.nextStep e).2.
Proof.
  intros [Hs Hh].
  assert (Hpush : Forall (state_typed type)
                    (_history (SM.pushHistory (_stateManager e)))).
  { simpl. unfold push. apply Forall_app. split; [done|].
    rewrite cloneState_id. by constructor. }
  destruct (decide (Z.of_nat (length (_steps e))
                    <= currentStepIndex (_state (_stateManager e)) + 1)) as [Hend|Hin].
  { by rewrite nextStep_at_end. }
  destruct (decide (currentStepIndex (_state (_stateManager e)) + 1 < 0)) as [Hneg|Hpos].
  - rewrite nextStep_negative by done. split; [|done].
    destruct Hs as [Hty Hcs]. split; simpl; [done | by rewrite map_spread || done].
  - destruct (nextStep_inside e) as (step & _ & ->); [lia|].
    split; simpl.
    + by apply state_typed_applyStep.
    + by rewrite applyStep_history.
Qed.

Lemma typed_previousStep (type : string) (e : ExecutionEngine) :
  typed type e -> typed type (Engine.previousStep e).2.
Proof.
  intros [Hs Hh].
  destruct (decide (currentStepIndex (_state (_stateManager e)) < 0)) as [Hneg|Hpos].
  { by rewrite previousStep_at_start. }
  destruct (decide (_history (_stateManager e) = [])) as [Hnil|Hcons].
  { by rewrite previousStep_no_history. }
  destruct (exists_last Hcons) as (h0 & s0 & Hhist).
  rewrite (previousStep_pop e h0 s0) by (done || lia).
  rewrite Hhist in Hh. apply Forall_app in Hh as [Hh0 Hs0]. split; simpl; [|done].
  by inversion Hs0.
Qed.

Lemma typed_doOp (type : string) (op : stepOp) (e : ExecutionEngine) :
  typed type e -> typed type (doOp op e).2.
Proof. destruct op; [apply typed_nextStep | apply typed_previousStep]. Qed.

Lemma run_cons (op : stepOp) (ops : list stepOp) (e : ExecutionEngine) :
  run (op :: ops) e
  = ((doOp op e).1 :: (run ops (doOp op e).2).1, (run ops (doOp op e).2).2).
Proof. simpl. destruct (doOp op e) as [c e1]. simpl. by destruct (run ops e1). Qed.

Lemma typed_run (type : string) (ops : list stepOp) (e : ExecutionEngine) :
  typed type e -> typed type (run ops e).2.
Proof.
  revert e. induction ops as [|op ops IH]; intros e He; [done|].
  rewrite run_cons. simpl. by apply IH, typed_doOp.
Qed.

Lemma typed_initialize (type : string) (e : ExecutionEngine) :
  typed type (Engine.initialize type e).
Proof. repeat split; constructor. Qed.

Lemma typed_reset (e : ExecutionEngine) : typed "inorder" (Engine.reset e).
Proof. repeat split; constructor. Qed.

(** Stepping changes neither the tree nor the step sequence. *)
Lemma doOp_frame (op : stepOp) (e : ExecutionEngine) :
  _steps (doOp op e).2 = _steps e /\ _tree (doOp op e).2 = _tree e.
Proof.
  destruct op; simpl.
  - unfold Engine.nextStep. destruct (_ >=? _); [done|].
    by destruct (array_get _ _).
  - unfold Engine.previousStep. destruct (_ <? _); [done|].
    by destruct (SM.popHistory _) as [[s|] sm].
Qed.

Lemma run_frame (ops : list stepOp) (e : ExecutionEngine) :
  _steps (run ops e).2 = _steps e /\ _tree (run ops e).2 = _tree e.
Proof.
  revert e. induction ops as [|op ops IH]; intros e; [done|].
  rewrite run_cons. simpl.
  destruct (IH (doOp op e).2) as [-> ->]. apply doOp_frame.
Qed.

End Typed.

(** C10. Take an engine initialized with any traversal type and stepped in
    any way.  After reset the state's traversalType is "inorder": the type
    set by initialize is not restored.  The step sequence is still the one
    generated for the initial type, and however the engine is stepped from
    there, the traversal type stays "inorder" and every frame on the call
    stack carries the function name "inOrder". *)
Theorem reset_forgets_traversal_type
        (type : string) (e0 : ExecutionEngine) (before after : list stepOp) :
  let e := (run before (Engine.initialize type e0)).2 in
  let e' := (run after (Engine.reset e)).2 in
  Engine.getTraversalType e = type /\
  Engine.getTraversalType (Engine.reset e) = "inorder" /\
  Engine.getTraversalType e' = "inorder" /\
  Forall (fun f => StackFrame.functionName f = "inOrder")
         (callStack (Engine.getState e')) /\
  Engine.getSteps e' = generateSteps (getTraversalGenerator type) (_tree e0).
Proof.
  intros e e'.
  destruct (typed_run type before _ (typed_initialize type e0)) as [[Hty _] _].
  destruct (typed_run "inorder" after _ (typed_reset e)) as [[Hty' Hcs'] _].
  unfold Engine.getTraversalType, Engine.getSteps. rewrite !getState_state.
  repeat split; try done.
  subst e' e.
  rewrite (proj1 (run_frame after _)). simpl.
  by rewrite (proj1 (run_frame before _)).
Qed.

(** After a preorder initialize and a reset, the first step pushes a frame
    named inOrder although the steps are the preorder ones. *)
Example reset_then_step_preorder :
  let e := Engine.reset (Engine.initialize "preorder" (Engine.constructor createDefaultTree)) in
  (Engine.nextStep e).1 = Return true /\
  callStack (Engine.getState (Engine.nextStep e).2)
  = [StackFrame.new "inOrder" (Some 4) "line 1"] /\
  Engine.getSteps (Engine.nextStep e).2 = PreorderGenerator.generateSteps createDefaultTree.
Proof. repeat split; vm_compute; reflexivity. Qed.

(* ================================================================== *)
(** ** An unrecognized traversal type                                   *)
(* ================================================================== *)

Section Retype.

Variable type : string.

Lemma applyStep_retype (step : ExecutionStep) (stepIndex : Z) (sm : StateManager) :
  Engine._getFunctionName type
  = Engine._getFunctionName (traversalType (_state sm)) ->
  Engine._applyStep step stepIndex (retypeSM type sm)
  = retypeSM type (Engine._applyStep step stepIndex sm).
Proof.
  intros Hname. destruct step as [ty nv line sa ns descr].
  unfold Engine._applyStep, SM.popCallStack, SM.pushCallStack; simpl.
  rewrite Hname.
  destruct sa, nv, ty; simpl; try reflexivity;
    destruct (length (callStack (_state sm)) =? 0)%nat; reflexivity.
Qed.

Lemma pushHistory_retype (sm : StateManager) :
  SM.pushHistory (retypeSM type sm) = retypeSM type (SM.pushHistory sm).
Proof.
  unfold SM.pushHistory, retypeSM, push. simpl.
  by rewrite map_app, !cloneState_id.
Qed.

Lemma nextStep_retype (e : ExecutionEngine) :
  Engine._getFunctionName type
  = Engine._getFunctionName (traversalType (_state (_stateManager e))) ->
  Engine.nextStep (retype type e)
  = ((Engine.nextStep e).1, retype type (Engine.nextStep e).2).
Proof.
  intros Hname. unfold Engine.nextStep. rewrite !getState_state.
  change (currentStepIndex (_state (_stateManager (retype type e))))
    with (currentStepIndex (_state (_stateManager e))).
  change (_steps (retype type e)) with (_steps e).
  destruct (_ >=? _); [done|].
  change (_stateManager (retype type e)) with (retypeSM type (_stateManager e)).
  rewrite pushHistory_retype.
  destruct (array_get _ _) as [step|]; simpl.
  - by rewrite applyStep_retype.
  - reflexivity.
Qed.

Lemma previousStep_retype (e : ExecutionEngine) :
  Engine.previousStep (retype type e)
  = ((Engine.previousStep e).1, retype type (Engine.previousStep e).2).
Proof.
  destruct (decide (currentStepIndex (_state (_stateManager e)) < 0)) as [Hneg|Hpos].
  { by rewrite !previousStep_at_start. }
  destruct (decide (_history (_stateManager e) = [])) as [Hnil|Hcons].
  { rewrite !previousStep_no_history; [done..|]. simpl. by rewrite Hnil. }
  destruct (exists_last Hcons) as (h0 & s0 & Hhist).
  rewrite (previousStep_pop e h0 s0) by (done || lia).
  rewrite (previousStep_pop (retype type e) (map (withTraversalType type) h0)
                            (withTraversalType type s0)).
  - reflexivity.
  - simpl. lia.
  - simpl. by rewrite Hhist, map_app.
Qed.

(** A run on the retyped engine is the retyped run, as long as [type]
    names frames the way the engine's own type does. *)
Lemma run_retype (type0 : string) (ops : list stepOp) (e : ExecutionEngine) :
  typed type0 e ->
  Engine._getFunctionName type = Engine._getFunctionName type0 ->
  run ops (retype type e) = ((run ops e).1, retype type (run ops e).2).
Proof.
  intros He Hname. revert e He.
  induction ops as [|op ops IH]; intros e He; [done|].
  rewrite !run_cons.
  assert (Hop : doOp op (retype type e) = ((doOp op e).1, retype type (doOp op e).2)).
  { destruct op; simpl; [|apply previousStep_retype].
    apply nextStep_retype. destruct He as [[-> _] _]. done. }
  rewrite Hop. simpl. by rewrite IH by (by apply typed_doOp).
Qed.

End Retype.

Lemma initialize_bogus (e0 : ExecutionEngine) :
  Engine.initialize "bogus" e0 = retype "bogus" (Engine.initialize "inorder" e0).
Proof. reflexivity. Qed.

(** C6, as stated, fails: the state after initialize("bogus") is not equal
    under statesEqual to the state after initialize("inorder"), because it
    holds the traversal type "bogus". *)
Lemma bogus_state_differs :
  statesEqual
    (Engine.getState (Engine.initialize "bogus" (Engine.constructor createDefaultTree)))
    (Engine.getState (Engine.initialize "inorder" (Engine.constructor createDefaultTree)))
  = false.
Proof. vm_compute. reflexivity. Qed.

(** C6, amended. Initializing with "bogus" generates the step sequence of
    "inorder"; and after initialize and any run of nextStep and previousStep
    calls, every call returns what it returns in the "inorder" run, and the
    state equals the state of the "inorder" run in every field except
    traversalType, which holds "bogus" where the other holds "inorder". *)
Theorem bogus_runs_as_inorder (e0 : ExecutionEngine) (ops : list stepOp) :
  Engine.getSteps (Engine.initialize "bogus" e0)
  = Engine.getSteps (Engine.initialize "inorder" e0) /\
  (run ops (Engine.initialize "bogus" e0)).1
  = (run ops (Engine.initialize "inorder" e0)).1 /\
  Engine.getSteps (run ops (Engine.initialize "bogus" e0)).2
  = Engine.getSteps (run ops (Engine.initialize "inorder" e0)).2 /\
  Engine.getState (run ops (Engine.initialize "bogus" e0)).2
  = withTraversalType "bogus"
      (Engine.getState (run ops (Engine.initialize "inorder" e0)).2) /\
  traversalType (Engine.getState (run ops (Engine.initialize "inorder" e0)).2)
  = "inorder" /\
  statesEqual
    (withTraversalType "inorder"
       (Engine.getState (run ops (Engine.initialize "bogus" e0)).2))
    (Engine.getState (run ops (Engine.initialize "inorder" e0)).2)
  = true.
Proof.
  rewrite initialize_bogus.
  rewrite (run_retype "bogus" "inorder" ops _ (typed_initialize "inorder" e0) eq_refl).
  destruct (typed_run "inorder" ops _ (typed_initialize "inorder" e0)) as [[Hty _] _].
  rewrite !getState_state. simpl.
  repeat split; try done.
  set (s := _state _) in *.
  replace (withTraversalType "inorder" (withTraversalType "bogus" s)) with s
    by (destruct s; simpl in *; by subst).
  apply statesEqual_refl.
Qed.

(* ================================================================== *)
(** ** Tree queries                                                     *)
(* ================================================================== *)

Section TreeQueries.

Lemma allNodes_traverse_app (node : tree) (nodes : list tree) :
  allNodes_traverse node nodes = nodes ++ allNodes_traverse node [].
Proof.
  revert nodes. induction node as [|value l IHl r IHr]; intros nodes; simpl.
  - by rewrite app_nil_r.
  - flush IHr r; flush IHl l. simpl. by rewrite <- !app_assoc.
Qed.

Lemma allNodes_node (value : Z) (l r : tree) :
  allNodes (TreeNode value l r) = TreeNode value l r :: allNodes l ++ allNodes r.
Proof.
  unfold allNodes. simpl.
  by rewrite (allNodes_traverse_app r), (allNodes_traverse_app l).
Qed.

Lemma getAllNodes_node (value : Z) (l r : tree) :
  getAllNodes (TreeNode value l r) = value :: getAllNodes l ++ getAllNodes r.
Proof.
  unfold getAllNodes. simpl.
  by rewrite (getAllNodes_traverse_app r), (getAllNodes_traverse_app l).
Qed.

Lemma allNodes_not_null (root : tree) : Forall (fun n => n <> null) (allNodes root).
Proof.
  induction root as [|value l IHl r IHr]; [constructor|].
  rewrite allNodes_node. constructor; [done|]. by apply Forall_app.
Qed.

Lemma getAllEdges_traverse_app (node : tree) (edges : list Edge) :
  getAllEdges_traverse node edges = edges ++ getAllEdges_traverse node [].
Proof.
  revert edges. induction node as [|value l IHl r IHr]; intros edges.
  - simpl. by rewrite app_nil_r.
  - assert (HL : forall acc E,
               match l with
               | null => acc
               | TreeNode _ _ _ => getAllEdges_traverse l (acc ++ [E])
               end
               = acc ++ match l with
                        | null => []
                        | TreeNode _ _ _ => E :: getAllEdges_traverse l []
                        end).
    { intros acc E. destruct l; [by rewrite app_nil_r|].
      rewrite IHl. by rewrite <- app_assoc. }
    assert (HR : forall acc E,
               match r with
               | null => acc
               | TreeNode _ _ _ => getAllEdges_traverse r (acc ++ [E])
               end
               = acc ++ match r with
                        | null => []
                        | TreeNode _ _ _ => E :: getAllEdges_traverse r []
                        end).
    { intros acc E. destruct r; [by rewrite app_nil_r|].
      rewrite IHr. by rewrite <- app_assoc. }
    cbn [getAllEdges_traverse]. rewrite !HR, !HL.
    cbn [app]. by rewrite <- !app_assoc.
Qed.

Lemma getAllEdges_node (value : Z) (l r : tree) :
  getAllEdges (TreeNode value l r)
  = edgesTo (TreeNode value l r) l ++ edgesTo (TreeNode value l r) r.
Proof.
  unfold getAllEdges, edgesTo. cbn [getAllEdges_traverse].
  destruct l as [|vl ll lr], r as [|vr rl rr]; cbn [app]; try done.
  - by rewrite getAllEdges_traverse_app.
  - by rewrite getAllEdges_traverse_app, app_nil_r.
  - rewrite getAllEdges_traverse_app, (getAllEdges_traverse_app (TreeNode vl ll lr)).
    cbn [app]. by rewrite <- app_assoc.
Qed.

End TreeQueries.

Lemma allNodes_values (root : tree) :
  getAllNodes root = preorder root /\
  map valueOf (allNodes root) = map Some (getAllNodes root) /\
  length (getAllNodes root) = countNodes root.
Proof.
  induction root as [|value l (IHl1 & IHl2 & IHl3) r (IHr1 & IHr2 & IHr3)]; [done|].
  rewrite getAllNodes_node, allNodes_node. cbn [preorder countNodes map app valueOf].
  rewrite !map_app, IHl2, IHr2, <- IHl1, <- IHr1.
  repeat split. simpl. rewrite length_app. lia.
Qed.

(** X1. getAllNodes lists the node values in preorder (a node, then its left
    subtree, then its right subtree), one per node object, and countNodes is
    the length of that list. *)
Theorem getAllNodes_preorder (root : tree) :
  getAllNodes root = preorder root /\
  map valueOf (allNodes root) = map Some (getAllNodes root) /\
  length (getAllNodes root) = countNodes root.
Proof. apply allNodes_values. Qed.

(** X2. findNode returns the first node, in the order of getAllNodes, whose
    value is the one looked for, and null when there is none.  So the result
    is null exactly when the value does not occur in the tree, and otherwise
    it is a node of the tree carrying that value. *)
Theorem findNode_first (root : tree) (value : Z) :
  findNode root value
  = default null (head (filter (fun n => valueOf n = Some value) (allNodes root))) /\
  (findNode root value = null <-> ~ occurs value root) /\
  (findNode root value <> null ->
   valueOf (findNode root value) = Some value /\ subtree (findNode root value) root).
Proof.
  induction root as [|v l (IHl1 & IHl2 & IHl3) r (IHr1 & IHr2 & IHr3)].
  { repeat split; simpl; tauto. }
  rewrite allNodes_node, filter_cons, filter_app. cbn [findNode valueOf occurs].
  destruct (Z.eqb_spec v value) as [->|Hne].
  - rewrite decide_True by done. repeat split; simpl; try done; tauto.
  - rewrite decide_False by congruence.
    destruct (findNode l value) as [|fv fl fr] eqn:Hfl.
    + assert (Hnone : filter (fun n => valueOf n = Some value) (allNodes l) = []).
      { destruct (filter _ (allNodes l)) as [|n ns] eqn:Hf; [done|].
        simpl in IHl1. subst n.
        assert (Hin : null ∈ filter (fun n => valueOf n = Some value) (allNodes l))
          by (rewrite Hf; left).
        apply list_elem_of_filter in Hin as [Hv _]. done. }
      rewrite Hnone. cbn [app]. split; [done|]. split.
      * rewrite IHr2. destruct IHl2 as [IHl2 _]. specialize (IHl2 eq_refl).
        split; [intros Hr [?|[?|?]]; congruence || tauto | tauto].
      * intros Hfound. destruct (IHr3 Hfound) as [Hv Hs].
        split; [done|]. simpl. tauto.
    + assert (Hnn : TreeNode fv fl fr <> null) by done.
      destruct (IHl3 Hnn) as [Hv Hs].
      destruct (filter _ (allNodes l)) as [|n ns] eqn:Hf; [done|].
      simpl in IHl1. subst n. cbn [app head default].
      split; [done|]. split.
      * split; [done|]. intros Hno. exfalso. apply Hno. right. left.
        destruct (decide (value ∈ getAllNodes l)) as [Hin|Hnot];
          [by apply elem_of_getAllNodes|].
        rewrite elem_of_getAllNodes in Hnot. by apply IHl2 in Hnot.
      * intros _. split; [done|]. simpl. tauto.
Qed.

(** X3. The depth of a tree is at most its number of nodes, and a tree of
    depth d has fewer than 2^d nodes. *)
Theorem getTreeDepth_bounds (root : tree) :
  (getTreeDepth root <= countNodes root)%nat /\
  (countNodes root < 2 ^ getTreeDepth root)%nat.
Proof.
  induction root as [|value l [IHl1 IHl2] r [IHr1 IHr2]]; [simpl; lia|].
  cbn [getTreeDepth countNodes]. split; [lia|].
  change (2 ^ (1 + ?n))%nat with (2 * 2 ^ n)%nat.
  assert (2 ^ getTreeDepth l <= 2 ^ Nat.max (getTreeDepth l) (getTreeDepth r))%nat
    by (apply Nat.pow_le_mono_r; lia).
  assert (2 ^ getTreeDepth r <= 2 ^ Nat.max (getTreeDepth l) (getTreeDepth r))%nat
    by (apply Nat.pow_le_mono_r; lia).
  lia.
Qed.

Section Edges.

(** The children of the edges below a node are the nodes below it. *)
Lemma allNodes_edges (root : tree) :
  allNodes root
  = match root with
    | null => []
    | TreeNode _ _ _ => root :: map child (getAllEdges root)
    end.
Proof.
  induction root as [|value l IHl r IHr]; [done|].
  rewrite allNodes_node, getAllEdges_node, map_app, IHl, IHr.
  by destruct l, r.
Qed.

Lemma edges_count (root : tree) :
  length (getAllEdges root) = (countNodes root - 1)%nat.
Proof.
  destruct (allNodes_values root) as (_ & Hmap & Hlen).
  assert (Hn : length (allNodes root) = countNodes root).
  { rewrite <- Hlen, <- (length_map valueOf), Hmap. apply length_map. }
  rewrite allNodes_edges in Hn. destruct root; [done|].
  simpl in Hn. rewrite length_map in Hn. simpl. lia.
Qed.

Lemma edges_ok (root : tree) : Forall edge_ok (getAllEdges root).
Proof.
  induction root as [|value l IHl r IHr]; [constructor|].
  rewrite getAllEdges_node. apply Forall_app. split.
  - destruct l; [constructor|]. constructor; [|done]. split; simpl; [done | by left].
  - destruct r; [constructor|]. constructor; [|done]. split; simpl; [done | by right].
Qed.

End Edges.

(** X4. getAllEdges gives one edge per node other than the root: the children
    of the edges, in order, are the nodes of getAllNodes after the root; each
    edge joins a node to its present left or right child; an absent root has
    no edge. *)
Theorem getAllEdges_children (root : tree) :
  allNodes root
  = match root with
    | null => []
    | TreeNode _ _ _ => root :: map child (getAllEdges root)
    end /\
  length (getAllEdges root) = (countNodes root - 1)%nat /\
  Forall edge_ok (getAllEdges root) /\
  getAllEdges null = [].
Proof.
  split; [apply allNodes_edges|]. split; [apply edges_count|].
  split; [apply edges_ok | done].
Qed.

(* ================================================================== *)
(** ** More on the generated sequences                                  *)
(* ================================================================== *)

(** Induction on the tree for a property of the three generators at once:
    the absent node is left as the first goal of each, the node case has the
    generator's equation rewritten. *)
Ltac generators_induction g root :=
  destruct g; cbn [generateSteps traversal];
  [ induction root as [|value l IHl r IHr]; [|rewrite inorder_node]
  | induction root as [|value l IHl r IHr]; [|rewrite preorder_node]
  | induction root as [|value l IHl r IHr]; [|rewrite postorder_node] ].

(** X5. A tree with N nodes gives 9N + 3 steps in each order: six per node
    and three per absent child slot. *)
Theorem generated_length (g : Generator) (root : tree) :
  length (generateSteps g root) = (9 * countNodes root + 3)%nat.
Proof.
  generators_induction g root; try reflexivity;
    rewrite !length_app, IHl, IHr; cbn [countNodes length]; lia.
Qed.

Section GeneratedSteps.

Lemma constructed_step_ok (s : ExecutionStep) :
  1 <= ExecutionStep.codeLine s <= 6 ->
  match ExecutionStep.type s with
  | CALL => ExecutionStep.stackAction s = PUSH
  | RETURN => ExecutionStep.stackAction s = POP
  | _ => ExecutionStep.stackAction s = NONE
  end ->
  match ExecutionStep.nodeValue s with
  | Some _ => True
  | None =>
      ExecutionStep.nodeState s = UNVISITED /\
      (ExecutionStep.type s = CALL \/ ExecutionStep.type s = CHECK_NULL
       \/ ExecutionStep.type s = RETURN)
  end ->
  generated_step_ok s.
Proof.
  destruct s as [ty nv line sa ns descr].
  unfold generated_step_ok, step_consistent. simpl. intros Hline Hsa Hnv.
  split; [done|]. split; [|split].
  - destruct ty, sa; repeat split; congruence.
  - intros ->. destruct nv; [by eexists|]. destruct Hnv as [_ [?|[?|?]]]; done.
  - intros ->. done.
Qed.

Lemma null_steps_ok (line1 line2 : Z) :
  1 <= line1 <= 6 -> 1 <= line2 <= 6 ->
  Forall generated_step_ok
    [ExecutionStep.call None line1;
     ExecutionStep.checkNull None line2;
     ExecutionStep.return_ None line2 true].
Proof.
  intros H1 H2.
  repeat (apply Forall_cons_2; [apply constructed_step_ok; simpl; auto 6|]).
  apply Forall_nil_2.
Qed.

End GeneratedSteps.

(** X6. Every step of every generated sequence points at one of the lines 1
    to 6, has stack action PUSH exactly when it is a CALL and POP exactly
    when it is a RETURN (NONE otherwise), carries a node value when it is a
    PROCESS_NODE, and, when it carries none, is a CALL, CHECK_NULL or RETURN
    whose node state is UNVISITED. *)
Theorem generated_steps_ok (g : Generator) (root : tree) :
  Forall generated_step_ok (generateSteps g root).
Proof.
  generators_induction g root;
    try (apply null_steps_ok; lia);
    repeat (apply Forall_app; split); try done;
    repeat (apply Forall_cons_2; [apply constructed_step_ok; simpl; auto; lia|]);
    apply Forall_nil_2.
Qed.

Lemma processed_generated (g : Generator) (root : tree) :
  processedValues (generateSteps g root) = traversal g root.
Proof.
  unfold processedValues.
  generators_induction g root; try reflexivity;
    rewrite !omap_app, IHl, IHr; simpl; by rewrite ?app_nil_r.
Qed.

(** X7. The values of the PROCESS_NODE steps, in the order the steps are
    generated, are the inorder, preorder or postorder listing of the tree,
    each node once. *)
Theorem processed_is_traversal (g : Generator) (root : tree) :
  processedValues (generateSteps g root) = traversal g root /\
  length (traversal g root) = countNodes root.
Proof.
  split; [apply processed_generated|].
  destruct g; simpl; induction root as [|value l IHl r IHr]; try done;
    cbn [inorder preorder postorder countNodes];
    rewrite !length_app, IHl, IHr; simpl; lia.
Qed.

(* ================================================================== *)
(** ** What a run of forward steps computes                             *)
(* ================================================================== *)

Section Replay.

Lemma applyStep_nodeStates (step : ExecutionStep) (stepIndex : Z) (sm : StateManager) :
  nodeStates (_state (Engine._applyStep step stepIndex sm))
  = markNode (nodeStates (_state sm)) step.
Proof. unfold markNode. apply_step_cases step; reflexivity. Qed.

Lemma applyStep_output (step : ExecutionStep) (stepIndex : Z) (sm : StateManager) :
  traversalOutput (_state (Engine._applyStep step stepIndex sm))
  = traversalOutput (_state sm)
      ++ match processed step with Some value => [value] | None => [] end.
Proof.
  unfold processed. apply_step_cases step; by rewrite ?app_nil_r.
Qed.

Lemma applyStep_flags (step : ExecutionStep) (stepIndex : Z) (sm : StateManager) :
  isPlaying (_state (Engine._applyStep step stepIndex sm)) = isPlaying (_state sm) /\
  animationSpeed (_state (Engine._applyStep step stepIndex sm))
  = animationSpeed (_state sm).
Proof. apply_step_cases step; by split. Qed.

Lemma slice_cons {A} (a : list A) (i : Z) (n : nat) (x : A) :
  array_get a i = Some x -> slice a i (S n) = x :: slice a (i + 1) n.
Proof.
  unfold array_get, slice. case_decide as Hi; [|done]. intros Hx.
  rewrite (drop_S _ _ _ Hx). cbn [take].
  by replace (Z.to_nat (i + 1)) with (S (Z.to_nat i)) by lia.
Qed.

Lemma slice_all {A} (a : list A) : slice a 0 (length a) = a.
Proof. unfold slice. simpl. by rewrite drop_0, take_ge. Qed.

Lemma slice_prefix {A} (a : list A) (n : nat) : slice a 0 n = take n a.
Proof. unfold slice. simpl. by rewrite drop_0. Qed.

(** The state after [n] successful forward steps, read off the steps taken. *)
Lemma replay (n : nat) (e e' : ExecutionEngine) :
  succeed Engine.nextStep n e = Some e' ->
  let s := _state (_stateManager e) in
  let s' := _state (_stateManager e') in
  let taken := slice (_steps e) (currentStepIndex s + 1) n in
  _steps e' = _steps e /\
  _tree e' = _tree e /\
  currentStepIndex s' = currentStepIndex s + Z.of_nat n /\
  traversalType s' = traversalType s /\
  traversalOutput s' = traversalOutput s ++ processedValues taken /\
  nodeStates s' = nodeStatesAfter (nodeStates s) taken /\
  callStack s'
  = stackAfter (Engine._getFunctionName (traversalType s)) (callStack s) taken.
Proof.
  revert e. induction n as [|n IH]; intros e.
  - intros [= ->]. simpl. rewrite app_nil_r. repeat split; try done. lia.
  - cbn [succeed]. destruct (Engine.nextStep e) as [[[|]|] e1] eqn:Hnext; try done.
    intros Hrun. destruct (nextStep_true e e1 Hnext) as (step & Hstep & ->).
    specialize (IH _ Hrun). cbn zeta in IH |- *.
    destruct IH as (H1 & H2 & H3 & H4 & H5 & H6 & H7).
    cbn [_stateManager _steps _tree Engine.with_manager] in *.
    rewrite applyStep_index in *. rewrite applyStep_traversalType in *.
    rewrite applyStep_output in H5. rewrite applyStep_nodeStates in H6.
    rewrite applyStep_callStack in H7.
    cbn [SM.pushHistory _state] in *.
    rewrite (slice_cons _ _ _ _ Hstep).
    unfold processedValues, nodeStatesAfter, stackAfter. cbn [omap foldl].
    repeat split; try done.
    + lia.
    + rewrite H5, <- app_assoc. f_equal. unfold processedValues.
      cbn [omap list_omap]. by destruct (processed step).
Qed.

Lemma stackAfter_length (functionName : string) (steps : list ExecutionStep)
      (cs : list StackFrame) :
  (forall k : nat, 0 <= Z.of_nat (length cs) + netStack (take k steps)) ->
  Z.of_nat (length (stackAfter functionName cs steps))
  = Z.of_nat (length cs) + netStack steps.
Proof.
  revert cs. induction steps as [|s steps IH]; intros cs Hpre; simpl; [lia|].
  unfold stackAfter in *. cbn [foldl].
  assert (Hlen : Z.of_nat (length (moveStack functionName cs s))
                 = Z.of_nat (length cs) + stackDelta (ExecutionStep.stackAction s)).
  { specialize (Hpre 1%nat). simpl in Hpre. rewrite ?take_0 in Hpre. simpl in Hpre.
    unfold moveStack. destruct (ExecutionStep.stackAction s); simpl in *.
    - rewrite length_app. simpl. lia.
    - destruct cs as [|f cs] using rev_ind; [simpl in *; lia|].
      rewrite removelast_last, length_app. simpl. lia.
    - lia. }
  rewrite IH.
  - rewrite Hlen. lia.
  - intros k. rewrite Hlen. specialize (Hpre (S k)). simpl in Hpre. lia.
Qed.

Lemma stackAfter_named (functionName : string) (steps : list ExecutionStep)
      (cs : list StackFrame) :
  Forall (fun f => StackFrame.functionName f = functionName) cs ->
  Forall (fun f => StackFrame.functionName f = functionName)
         (stackAfter functionName cs steps).
Proof.
  revert cs. induction steps as [|s steps IH]; intros cs Hcs; [done|].
  unfold stackAfter in *. cbn [foldl]. apply IH.
  unfold moveStack. destruct (ExecutionStep.stackAction s); [| |done].
  - apply Forall_app. split; [done|]. by repeat constructor.
  - by apply Forall_removelast.
Qed.

End Replay.

Section Peak.

Lemma netStack_neutrals (l : list ExecutionStep) :
  Forall (fun s => ExecutionStep.stackAction s = NONE) l -> netStack l = 0.
Proof. induction 1 as [|s l Hs _ IH]; simpl; [done | rewrite Hs, IH; done]. Qed.

Lemma peak_mono (d d' : Z) (l : list ExecutionStep) :
  d <= d' -> peak d l -> peak d' l.
Proof. intros Hd Hl k. specialize (Hl k). lia. Qed.

Lemma peak_neutrals (l : list ExecutionStep) :
  Forall (fun s => ExecutionStep.stackAction s = NONE) l -> peak 0 l.
Proof. intros Hl k. rewrite netStack_neutrals; [done | by apply Forall_take]. Qed.

Lemma peak_app (d : Z) (l1 l2 : list ExecutionStep) :
  netStack l1 = 0 -> peak d l1 -> peak d l2 -> peak d (l1 ++ l2).
Proof.
  intros Hnet H1 H2 k. rewrite take_app, netStack_app.
  destruct (decide (k <= length l1)%nat) as [Hk|Hk].
  - replace (k - length l1)%nat with 0%nat by lia. rewrite take_0. simpl.
    specialize (H1 k). lia.
  - rewrite (take_ge l1) by lia. specialize (H2 (k - length l1)%nat). lia.
Qed.

Lemma peak_frame (d : Z) (c r : ExecutionStep) (pre mid post L R : list ExecutionStep) :
  0 <= d ->
  ExecutionStep.stackAction c = PUSH ->
  ExecutionStep.stackAction r = POP ->
  Forall (fun s => ExecutionStep.stackAction s = NONE) (pre ++ mid ++ post) ->
  balanced L -> balanced R -> peak d L -> peak d R ->
  peak (d + 1) ([c] ++ pre ++ L ++ mid ++ R ++ post ++ [r]).
Proof.
  intros Hd Hc Hr Hn [HL _] [HR _] PL PR.
  apply Forall_app in Hn as [Hpre Hn]. apply Forall_app in Hn as [Hmid Hpost].
  assert (Hbody : peak d (pre ++ L ++ mid ++ R ++ post)).
  { assert (Hneutral : forall l,
               Forall (fun s => ExecutionStep.stackAction s = NONE) l -> peak d l).
    { intros l Hl. apply (peak_mono 0); [done | by apply peak_neutrals]. }
    apply peak_app; [by apply netStack_neutrals | by apply Hneutral |].
    apply peak_app; [done..|].
    apply peak_app; [by apply netStack_neutrals | by apply Hneutral |].
    apply peak_app; [done | done | by apply Hneutral]. }
  replace ([c] ++ pre ++ L ++ mid ++ R ++ post ++ [r])
    with (c :: (pre ++ L ++ mid ++ R ++ post) ++ [r])
    by (simpl; by rewrite <- !app_assoc).
  intros [|k]; simpl; [lia|].
  rewrite Hc, take_app, netStack_app. specialize (Hbody k).
  assert (netStack (take (k - length (pre ++ L ++ mid ++ R ++ post)) [r]) <= 0).
  { destruct (k - length _)%nat; simpl; [lia|]. rewrite Hr, take_nil. simpl. lia. }
  simpl. lia.
Qed.

Lemma null_peak (line1 line2 : Z) :
  peak 1 [ExecutionStep.call None line1;
          ExecutionStep.checkNull None line2;
          ExecutionStep.return_ None line2 true].
Proof.
  apply (peak_frame 0 _ _ [_] [] [] [] []); try done.
  - by repeat constructor.
  - apply balanced_nil.
  - apply balanced_nil.
  - by intros [|k].
  - by intros [|k].
Qed.

(** The deepest the generated pushes go is one frame per level of the tree,
    plus one for the call on an absent child. *)
Lemma generated_peak (g : Generator) (root : tree) :
  peak (Z.of_nat (getTreeDepth root) + 1) (generateSteps g root).
Proof.
  generators_induction g root; try apply null_peak;
    cbn [getTreeDepth];
    replace (Z.of_nat (1 + Nat.max (getTreeDepth l) (getTreeDepth r)) + 1)
      with (Z.of_nat (Nat.max (getTreeDepth l) (getTreeDepth r)) + 1 + 1) by lia.
  - apply (peak_frame _ _ _ [_; _] [_; _] []); try done; try lia.
    + by repeat constructor.
    + apply inorder_balanced.
    + apply inorder_balanced.
    + eapply peak_mono; [|exact IHl]. lia.
    + eapply peak_mono; [|exact IHr]. lia.
  - apply (peak_frame _ _ _ [_; _; _] [_] []); try done; try lia.
    + by repeat constructor.
    + apply preorder_balanced.
    + apply preorder_balanced.
    + eapply peak_mono; [|exact IHl]. lia.
    + eapply peak_mono; [|exact IHr]. lia.
  - apply (peak_frame _ _ _ [_; _] [_] [_]); try done; try lia.
    + by repeat constructor.
    + apply postorder_balanced.
    + apply postorder_balanced.
    + eapply peak_mono; [|exact IHl]. lia.
    + eapply peak_mono; [|exact IHr]. lia.
Qed.

End Peak.

Section Finishes.

Lemma nodeStatesAfter_app (m : gmap Z NodeState) (l1 l2 : list ExecutionStep) :
  nodeStatesAfter m (l1 ++ l2) = nodeStatesAfter (nodeStatesAfter m l1) l2.
Proof. apply foldl_app. Qed.

(** Steps that carry other values, or none, leave the entry of [value]. *)
Lemma nodeStatesAfter_other (value : Z) (l : list ExecutionStep) (m : gmap Z NodeState) :
  Forall (fun s => ExecutionStep.nodeValue s <> Some value) l ->
  nodeStatesAfter m l !! value = m !! value.
Proof.
  intros Hl. revert m. induction Hl as [|s l Hs _ IH]; intros m; [done|].
  unfold nodeStatesAfter in *. cbn [foldl]. rewrite IH. unfold markNode.
  destruct (ExecutionStep.nodeValue s) as [x|]; [|done].
  apply lookup_insert_ne. congruence.
Qed.

Lemma finishes_frame (x : Z) (l r : tree) (c ret : ExecutionStep)
      (pre mid post L R : list ExecutionStep) :
  Forall (fun s => ExecutionStep.nodeValue s = Some x) (c :: pre ++ mid ++ post) ->
  ExecutionStep.nodeValue ret = Some x ->
  ExecutionStep.nodeState ret = FINISHED ->
  finishes l L -> finishes r R ->
  finishes (TreeNode x l r) ([c] ++ pre ++ L ++ mid ++ R ++ post ++ [ret]).
Proof.
  intros Hx Hret Hfin HL HR m value.
  apply Forall_cons in Hx as [Hc Hx].
  apply Forall_app in Hx as [Hpre Hx]. apply Forall_app in Hx as [Hmid Hpost].
  rewrite getAllNodes_node.
  rewrite !nodeStatesAfter_app.
  set (M := nodeStatesAfter _ post).
  change (nodeStatesAfter M [ret]) with (markNode M ret).
  unfold markNode. rewrite Hret, Hfin.
  destruct (decide (value = x)) as [->|Hne].
  { rewrite lookup_insert_eq, decide_True; [done | by left]. }
  rewrite lookup_insert_ne by done. subst M.
  assert (Hskip : forall steps m',
             Forall (fun s => ExecutionStep.nodeValue s = Some x) steps ->
             nodeStatesAfter m' steps !! value = m' !! value).
  { intros steps m' Hsteps. apply nodeStatesAfter_other.
    eapply Forall_impl; [exact Hsteps|]. simpl. intros s ->. congruence. }
  rewrite (Hskip post) by done. rewrite HR.
  rewrite (Hskip mid) by done. rewrite HL.
  rewrite (Hskip pre) by done. rewrite (Hskip [c]) by (by constructor).
  destruct (decide (value ∈ getAllNodes r)) as [Hr|Hr],
           (decide (value ∈ getAllNodes l)) as [Hl|Hl],
           (decide (value ∈ x :: getAllNodes l ++ getAllNodes r)) as [Hin|Hin];
    try done; exfalso.
  - apply Hin. right. apply elem_of_app. by right.
  - apply Hin. right. apply elem_of_app. by right.
  - apply Hin. right. apply elem_of_app. by left.
  - apply elem_of_cons in Hin as [?|Hin]; [done|].
    apply elem_of_app in Hin as [?|?]; done.
Qed.

Lemma null_finishes (line1 line2 : Z) :
  finishes null [ExecutionStep.call None line1;
                 ExecutionStep.checkNull None line2;
                 ExecutionStep.return_ None line2 true].
Proof.
  intros m value. rewrite nodeStatesAfter_other; [|by repeat constructor].
  rewrite decide_False; [done|]. apply not_elem_of_nil.
Qed.

Lemma generated_finishes (g : Generator) (root : tree) :
  finishes root (generateSteps g root).
Proof.
  generators_induction g root; try apply null_finishes.
  - apply (finishes_frame _ _ _ _ _ [_; _] [_; _] []); try done.
    by repeat constructor.
  - apply (finishes_frame _ _ _ _ _ [_; _; _] [_] []); try done.
    by repeat constructor.
  - apply (finishes_frame _ _ _ _ _ [_; _] [_] [_]); try done.
    by repeat constructor.
Qed.

End Finishes.

Section FullRun.

Variables (type : string) (e0 : ExecutionEngine).

(** The first [k] forward steps of a freshly initialized engine. *)
Lemma initialized_run (k : nat) :
  (k <= length (_steps (Engine.initialize type e0)))%nat ->
  exists e',
    succeed Engine.nextStep k (Engine.initialize type e0) = Some e' /\
    _steps e' = generateSteps (getTraversalGenerator type) (_tree e0) /\
    currentStepIndex (_state (_stateManager e')) = Z.of_nat k - 1 /\
    traversalOutput (_state (_stateManager e'))
    = processedValues (take k (generateSteps (getTraversalGenerator type) (_tree e0))) /\
    nodeStates (_state (_stateManager e'))
    = nodeStatesAfter
        (nodeStates (_state (_stateManager (Engine.initialize type e0))))
        (take k (generateSteps (getTraversalGenerator type) (_tree e0))) /\
    callStack (_state (_stateManager e'))
    = stackAfter (Engine._getFunctionName type) []
        (take k (generateSteps (getTraversalGenerator type) (_tree e0))).
Proof.
  intros Hk. destruct (initialized_can_step type e0 k Hk) as [e' Hrun].
  exists e'. split; [done|].
  destruct (replay k _ _ Hrun) as (H1 & _ & H3 & _ & H5 & H6 & H7).
  change (currentStepIndex (_state (_stateManager (Engine.initialize type e0))))
    with (-1) in *.
  change (-1 + 1) with 0 in *. rewrite slice_prefix in *.
  repeat split; try done. lia.
Qed.

End FullRun.

(** X8. For every tree and every traversal type, applying every generated
    step with nextStep succeeds and leaves in traversalOutput the inorder,
    preorder or postorder listing of the tree (inorder for an unrecognized
    type); the engine is then at the end and a further nextStep returns false
    without changing it. *)
Theorem full_run_output (type : string) (e0 : ExecutionEngine) :
  exists e',
    succeed Engine.nextStep
      (length (Engine.getSteps (Engine.initialize type e0)))
      (Engine.initialize type e0) = Some e' /\
    traversalOutput (Engine.getState e')
    = traversal (getTraversalGenerator type) (_tree e0) /\
    Engine.isAtEnd e' = true /\
    Engine.nextStep e' = (Return false, e').
Proof.
  destruct (initialized_run type e0 _ (Nat.le_refl _))
    as (e' & Hrun & Hsteps & Hidx & Hout & _).
  exists e'. split; [exact Hrun|].
  unfold Engine.isAtEnd, Engine.getTotalSteps. rewrite !getState_state.
  change (_steps (Engine.initialize type e0))
    with (generateSteps (getTraversalGenerator type) (_tree e0)) in *.
  rewrite take_ge in Hout by done.
  split; [|split].
  - rewrite Hout. apply processed_generated.
  - rewrite Hidx, Hsteps. apply Z.geb_le. lia.
  - apply nextStep_at_end. rewrite Hidx, Hsteps. lia.
Qed.

(** X9. For every tree and every traversal type, once every generated step
    has been applied, the node states map the value of every node of the tree
    to FINISHED and hold no other entry. *)
Theorem full_run_finishes_nodes (type : string) (e0 : ExecutionEngine) :
  exists e',
    succeed Engine.nextStep
      (length (Engine.getSteps (Engine.initialize type e0)))
      (Engine.initialize type e0) = Some e' /\
    forall value,
      nodeStates (Engine.getState e') !! value
      = if decide (value ∈ getAllNodes (_tree e0)) then Some FINISHED else None.
Proof.
  destruct (initialized_run type e0 _ (Nat.le_refl _))
    as (e' & Hrun & _ & _ & _ & Hnodes & _).
  exists e'. split; [exact Hrun|]. intros value.
  rewrite getState_state, Hnodes.
  change (_steps (Engine.initialize type e0))
    with (generateSteps (getTraversalGenerator type) (_tree e0)).
  rewrite take_ge by done. rewrite generated_finishes.
  case_decide as Hin; [done|].
  etrans; [apply (resetNodeStates_lookup (getAllNodes (_tree e0)))|].
  by rewrite decide_False.
Qed.

(** X10. In a run from initialize, after k forward steps the call stack
    holds as many frames as the first k steps push more than they pop; that
    is never more than the depth of the tree plus one, every frame carries
    the function name of the traversal type, and after the last step the call
    stack is empty. *)
Theorem call_stack_depth (type : string) (e0 : ExecutionEngine) (k : nat) :
  (k <= length (Engine.getSteps (Engine.initialize type e0)))%nat ->
  exists e',
    succeed Engine.nextStep k (Engine.initialize type e0) = Some e' /\
    Z.of_nat (length (callStack (Engine.getState e')))
    = netStack (take k (Engine.getSteps (Engine.initialize type e0))) /\
    (length (callStack (Engine.getState e')) <= getTreeDepth (_tree e0) + 1)%nat /\
    Forall (fun f => StackFrame.functionName f = Engine._getFunctionName type)
           (callStack (Engine.getState e')) /\
    (k = length (Engine.getSteps (Engine.initialize type e0)) ->
     callStack (Engine.getState e') = []).
Proof.
  intros Hk.
  destruct (initialized_run type e0 k Hk) as (e' & Hrun & _ & _ & _ & _ & Hcs).
  exists e'. split; [exact Hrun|]. rewrite getState_state, Hcs.
  unfold Engine.getSteps.
  change (_steps (Engine.initialize type e0))
    with (generateSteps (getTraversalGenerator type) (_tree e0)) in *.
  set (steps := generateSteps (getTraversalGenerator type) (_tree e0)) in *.
  destruct (generated_balanced (getTraversalGenerator type) (_tree e0)) as [Hnet Hpre].
  fold steps in Hnet, Hpre.
  assert (Hlen : Z.of_nat (length (stackAfter (Engine._getFunctionName type) []
                                              (take k steps)))
                 = netStack (take k steps)).
  { rewrite stackAfter_length; [simpl; lia|].
    intros j. rewrite take_take. simpl. apply Hpre. }
  split; [exact Hlen|]. split; [|split].
  - pose proof (generated_peak (getTraversalGenerator type) (_tree e0) k) as Hpeak.
    fold steps in Hpeak. lia.
  - by apply stackAfter_named.
  - intros ->. rewrite take_ge in Hlen |- * by done. rewrite Hnet in Hlen.
    apply nil_length_inv. lia.
Qed.

(** The depth theorem on the default tree, five steps into the inorder run. *)
Lemma call_stack_depth_witness :
  (5 <= length (Engine.getSteps
                  (Engine.initialize "inorder" (Engine.constructor createDefaultTree))))%nat /\
  exists e',
    succeed Engine.nextStep 5
      (Engine.initialize "inorder" (Engine.constructor createDefaultTree)) = Some e' /\
    Z.of_nat (length (callStack (Engine.getState e')))
    = netStack (take 5 (Engine.getSteps
                          (Engine.initialize "inorder" (Engine.constructor createDefaultTree)))) /\
    (length (callStack (Engine.getState e'))
     <= getTreeDepth (_tree (Engine.constructor createDefaultTree)) + 1)%nat /\
    Forall (fun f => StackFrame.functionName f = Engine._getFunctionName "inorder")
           (callStack (Engine.getState e')) /\
    (5%nat = length (Engine.getSteps
                   (Engine.initialize "inorder" (Engine.constructor createDefaultTree))) ->
     callStack (Engine.getState e') = []).
Proof.
  assert (H : (5 <= length (Engine.getSteps
                  (Engine.initialize "inorder" (Engine.constructor createDefaultTree))))%nat)
    by (vm_compute; lia).
  split; [exact H|].
  exact (call_stack_depth "inorder" (Engine.constructor createDefaultTree) 5 H).
Defined.

(* ================================================================== *)
(** ** The history of a reachable engine                                *)
(* ================================================================== *)

Section History.

Lemma seqZ_snoc (m n : Z) : 0 <= n -> seqZ m (n + 1) = seqZ m n ++ [m + n].
Proof.
  intros Hn. rewrite seqZ_app by lia. by f_equal.
Qed.

Lemma history_ok_fresh (e : ExecutionEngine) :
  currentStepIndex (_state (_stateManager e)) = -1 ->
  _history (_stateManager e) = [] ->
  history_ok e.
Proof. intros Hi Hh. unfold history_ok. by rewrite Hi, Hh. Qed.

Lemma history_ok_nextStep (e : ExecutionEngine) :
  engine_ok e -> history_ok e -> history_ok (Engine.nextStep e).2.
Proof.
  intros [[Hlo Hhi] _] Hh.
  destruct (decide (Z.of_nat (length (_steps e))
                    <= currentStepIndex (_state (_stateManager e)) + 1)) as [Hend|Hin].
  { by rewrite nextStep_at_end. }
  destruct (nextStep_inside e) as (step & _ & ->); [lia|].
  unfold history_ok in *. simpl.
  rewrite applyStep_index, applyStep_history. simpl. unfold push.
  rewrite map_app, Hh, cloneState_id.
  rewrite (seqZ_snoc (-1) (currentStepIndex (_state (_stateManager e)) + 1)) by lia.
  simpl. do 2 f_equal. lia.
Qed.

(** The top snapshot of a reachable engine is one step behind. *)
Lemma history_ok_top (e : ExecutionEngine) :
  history_ok e ->
  0 <= currentStepIndex (_state (_stateManager e)) ->
  exists h s,
    _history (_stateManager e) = h ++ [s] /\
    currentStepIndex s = currentStepIndex (_state (_stateManager e)) - 1 /\
    map currentStepIndex h = seqZ (-1) (currentStepIndex (_state (_stateManager e))).
Proof.
  unfold history_ok. intros Hh Hpos.
  rewrite seqZ_snoc in Hh by lia.
  destruct (decide (_history (_stateManager e) = [])) as [Hnil|Hcons].
  { rewrite Hnil in Hh. by destruct (seqZ _ _). }
  destruct (exists_last Hcons) as (h & s & Heq). exists h, s.
  rewrite Heq, map_app in Hh. apply app_inj_tail in Hh as [Hh1 Hh2].
  split; [done|]. split; [|done]. simpl in Hh2. lia.
Qed.

Lemma history_ok_previousStep (e : ExecutionEngine) :
  history_ok e -> history_ok (Engine.previousStep e).2.
Proof.
  intros Hh.
  destruct (decide (currentStepIndex (_state (_stateManager e)) < 0)) as [Hneg|Hpos].
  { by rewrite previousStep_at_start. }
  destruct (history_ok_top e Hh) as (h & s & Heq & Hs & Hmap); [lia|].
  rewrite (previousStep_pop e h s) by (done || lia).
  unfold history_ok. simpl. rewrite Hmap, Hs. f_equal. lia.
Qed.

Lemma reachable_history (e : ExecutionEngine) : reachable e -> history_ok e.
Proof.
  induction 1 as [tree|type e|e He IH|e He IH|e He IH|e He IH|e He IH|ms e He IH].
  - by apply history_ok_fresh.
  - by apply history_ok_fresh.
  - apply history_ok_nextStep; [by apply reachable_ok | done].
  - by apply history_ok_previousStep.
  - by apply history_ok_fresh.
  - unfold Engine.play. by destruct (_playIntervalId e).
  - done.
  - unfold Engine.setSpeed. destruct (isPlaying _); [|done].
    unfold Engine.play. simpl. done.
Qed.

Lemma reachable_run (ops : list stepOp) (e : ExecutionEngine) :
  reachable e -> reachable (run ops e).2.
Proof.
  revert e. induction ops as [|op ops IH]; intros e He; [done|].
  rewrite run_cons. cbn [snd]. apply IH.
  destruct op; [by apply reach_nextStep | by apply reach_previousStep].
Qed.

End History.

(** X11. In every engine a client can hold, the history has one snapshot per
    forward step taken: its length is the step index plus one, and the
    snapshots carry the step indices -1, 0, 1, ... up to the one before the
    current index. *)
Theorem history_length (e : ExecutionEngine) :
  reachable e ->
  Z.of_nat (SM.getHistoryLength (_stateManager e))
  = Engine.getCurrentStepIndex e + 1 /\
  map currentStepIndex (_history (_stateManager e))
  = seqZ (-1) (Engine.getCurrentStepIndex e + 1).
Proof.
  intros He. pose proof (reachable_history e He) as Hh.
  destruct (reachable_ok e He) as [[Hlo _] _].
  unfold Engine.getCurrentStepIndex, SM.getHistoryLength. rewrite getState_state.
  split; [|exact Hh].
  rewrite <- (length_map currentStepIndex), Hh, length_seqZ. lia.
Qed.

(** The history theorem four steps into the inorder run of the default
    tree. *)
Lemma history_length_witness :
  let e := (run [Next; Next; Next; Next]
              (Engine.initialize "inorder" (Engine.constructor createDefaultTree))).2 in
  reachable e /\
  Z.of_nat (SM.getHistoryLength (_stateManager e)) = Engine.getCurrentStepIndex e + 1 /\
  map currentStepIndex (_history (_stateManager e))
  = seqZ (-1) (Engine.getCurrentStepIndex e + 1).
Proof.
  assert (H : reachable
                (run [Next; Next; Next; Next]
                   (Engine.initialize "inorder" (Engine.constructor createDefaultTree))).2).
  { apply reachable_run, reach_initialize. }
  split; [exact H|]. exact (history_length _ H).
Defined.

(** X12. For every engine a client can hold: when the step index is below 0,
    previousStep returns false and leaves the engine unchanged; otherwise it
    returns true, the step index goes down by exactly 1 and the history loses
    its last snapshot. *)
Theorem previousStep_boundary (e : ExecutionEngine) :
  reachable e ->
  (Engine.getCurrentStepIndex e < 0 -> Engine.previousStep e = (Return false, e)) /\
  (0 <= Engine.getCurrentStepIndex e ->
   exists e',
     Engine.previousStep e = (Return true, e') /\
     Engine.getCurrentStepIndex e' = Engine.getCurrentStepIndex e - 1 /\
     _history (_stateManager e) = _history (_stateManager e') ++ [Engine.getState e'] /\
     _steps e' = _steps e).
Proof.
  intros He. pose proof (reachable_history e He) as Hh.
  unfold Engine.getCurrentStepIndex. rewrite getState_state. split.
  - apply previousStep_at_start.
  - intros Hpos. destruct (history_ok_top e Hh Hpos) as (h & s & Heq & Hs & _).
    eexists. split; [by apply (previousStep_pop e h s)|].
    rewrite !getState_state. simpl. by rewrite Heq.
Qed.

(** The step-back theorem two steps into the postorder run of the default
    tree. *)
Lemma previousStep_boundary_witness :
  let e := (run [Next; Next]
              (Engine.initialize "postorder" (Engine.constructor createDefaultTree))).2 in
  reachable e /\
  0 <= Engine.getCurrentStepIndex e /\
  exists e',
    Engine.previousStep e = (Return true, e') /\
    Engine.getCurrentStepIndex e' = Engine.getCurrentStepIndex e - 1 /\
    _history (_stateManager e) = _history (_stateManager e') ++ [Engine.getState e'] /\
    _steps e' = _steps e.
Proof.
  assert (H : reachable
                (run [Next; Next]
                   (Engine.initialize "postorder" (Engine.constructor createDefaultTree))).2).
  { apply reachable_run, reach_initialize. }
  assert (Hpos : 0 <= Engine.getCurrentStepIndex
                        (run [Next; Next]
                           (Engine.initialize "postorder"
                              (Engine.constructor createDefaultTree))).2)
    by (vm_compute; discriminate).
  split; [exact H|]. split; [exact Hpos|].
  exact (proj2 (previousStep_boundary _ H) Hpos).
Defined.

(* ================================================================== *)
(** ** Queries, re-initialization and the playback flags                *)
(* ================================================================== *)

(** X13. For every engine a client can hold, isAtEnd and isAtStart tell what
    the stepping methods will return: nextStep returns false when isAtEnd is
    true and true when it is false; previousStep returns false when isAtStart
    is true and true when it is false. *)
Theorem step_gates (e : ExecutionEngine) :
  reachable e ->
  (Engine.nextStep e).1 = Return (negb (Engine.isAtEnd e)) /\
  (Engine.previousStep e).1 = Return (negb (Engine.isAtStart e)).
Proof.
  intros He. destruct (reachable_ok e He) as [[Hlo Hhi] _].
  pose proof (reachable_history e He) as Hh.
  unfold Engine.isAtEnd, Engine.isAtStart, Engine.getTotalSteps.
  rewrite !getState_state. split.
  - destruct (_ >=? _) eqn:Hge.
    + apply Z.geb_le in Hge. rewrite nextStep_at_end; [done | lia].
    + destruct (nextStep_inside e) as (step & _ & ->); [|done].
      destruct (Z.geb_spec (currentStepIndex (_state (_stateManager e)))
                           (Z.of_nat (length (_steps e)) - 1)); [done | lia].
  - destruct (_ <? 0) eqn:Hlt.
    + apply Z.ltb_lt in Hlt. by rewrite previousStep_at_start.
    + assert (Hpos : 0 <= currentStepIndex (_state (_stateManager e))).
      { destruct (Z.ltb_spec (currentStepIndex (_state (_stateManager e))) 0);
          [done | lia]. }
      destruct (history_ok_top e Hh Hpos) as (h & s & Heq & _).
      by rewrite (previousStep_pop e h s).
Qed.

(** The gates on the default tree after one step of the inorder run. *)
Lemma step_gates_witness :
  let e := (run [Next] (Engine.initialize "inorder" (Engine.constructor createDefaultTree))).2 in
  reachable e /\
  (Engine.nextStep e).1 = Return (negb (Engine.isAtEnd e)) /\
  (Engine.previousStep e).1 = Return (negb (Engine.isAtStart e)).
Proof.
  assert (H : reachable
                (run [Next]
                   (Engine.initialize "inorder" (Engine.constructor createDefaultTree))).2)
    by apply reachable_run, reach_initialize.
  split; [exact H|]. exact (step_gates _ H).
Defined.

(** X14. For every engine a client can hold, getCurrentStep is null exactly
    when no step has been applied (the step index is -1), and otherwise it is
    the step at the current index, whose codeLine is the highlighted line
    right after a successful nextStep. *)
Theorem getCurrentStep_applied (e : ExecutionEngine) :
  reachable e ->
  (Engine.getCurrentStep e = None <-> Engine.getCurrentStepIndex e = -1) /\
  (Engine.getCurrentStepIndex e <> -1 ->
   Engine.getCurrentStep e
   = Engine.getSteps e !! Z.to_nat (Engine.getCurrentStepIndex e) /\
   is_Some (Engine.getCurrentStep e)) /\
  (forall e',
     Engine.nextStep e = (Return true, e') ->
     exists step,
       Engine.getCurrentStep e' = Some step /\
       highlightedLine (Engine.getState e') = ExecutionStep.codeLine step).
Proof.
  intros He. destruct (reachable_ok e He) as [[Hlo Hhi] _].
  unfold Engine.getCurrentStep, Engine.getCurrentStepIndex, Engine.getSteps.
  rewrite !getState_state.
  assert (Hget : forall e1 : ExecutionEngine,
             0 <= currentStepIndex (_state (_stateManager e1))
                < Z.of_nat (length (_steps e1)) ->
             (if (currentStepIndex (_state (_stateManager e1)) <? 0)
                 || (currentStepIndex (_state (_stateManager e1))
                     >=? Z.of_nat (length (_steps e1)))
              then None
              else array_get (_steps e1) (currentStepIndex (_state (_stateManager e1))))
             = _steps e1 !! Z.to_nat (currentStepIndex (_state (_stateManager e1)))).
  { intros e1 Hr.
    rewrite (proj2 (Z.ltb_ge _ _)) by lia.
    destruct (Z.geb_spec (currentStepIndex (_state (_stateManager e1)))
                         (Z.of_nat (length (_steps e1)))); [lia|].
    simpl. unfold array_get. by rewrite decide_True by lia. }
  split; [|split].
  - destruct (decide (currentStepIndex (_state (_stateManager e)) = -1)) as [Heq|Hne].
    + rewrite Heq. simpl. done.
    + rewrite Hget by lia. split; [|done]. intros Hnone.
      apply lookup_ge_None in Hnone. lia.
  - intros Hne. rewrite Hget by lia. split; [done|].
    apply lookup_lt_is_Some. lia.
  - intros e' Hnext. destruct (nextStep_true e e' Hnext) as (step & Hstep & ->).
    exists step. rewrite getState_state.
    pose proof (array_get_range _ _ _ Hstep) as Hr.
    cbn [Engine.with_manager _stateManager _steps].
    rewrite applyStep_index, applyStep_highlightedLine.
    split; [|done].
    rewrite (proj2 (Z.ltb_ge _ _)) by lia.
    destruct (Z.geb_spec (currentStepIndex (_state (_stateManager e)) + 1)
                         (Z.of_nat (length (_steps e)))); [lia|].
    simpl. exact Hstep.
Qed.

(** The current step of the default tree's preorder run after three steps. *)
Lemma getCurrentStep_applied_witness :
  let e := (run [Next; Next; Next]
              (Engine.initialize "preorder" (Engine.constructor createDefaultTree))).2 in
  reachable e /\
  Engine.getCurrentStep e = Some (ExecutionStep.processNode (Some 4) 3).
Proof.
  assert (H : reachable
                (run [Next; Next; Next]
                   (Engine.initialize "preorder" (Engine.constructor createDefaultTree))).2)
    by apply reachable_run, reach_initialize.
  split; [exact H|].
  destruct (getCurrentStep_applied _ H) as (_ & Hcur & _).
  destruct Hcur as [Hcur _]; [vm_compute; discriminate|].
  rewrite Hcur. vm_compute. reflexivity.
Defined.

Section Reinitialize.

(** [initialize] reads nothing of the engine but its tree. *)
Lemma initialize_tree (type : string) (e e' : ExecutionEngine) :
  _tree e = _tree e' -> Engine.initialize type e = Engine.initialize type e'.
Proof. unfold Engine.initialize. simpl. by intros ->. Qed.

Lemma setSpeed_tree (ms : Z) (e : ExecutionEngine) :
  _tree (Engine.setSpeed ms e) = _tree e.
Proof.
  unfold Engine.setSpeed. destruct (isPlaying _); [|done].
  unfold Engine.play. by destruct (_playIntervalId _).
Qed.

Lemma play_tree (e : ExecutionEngine) : _tree (Engine.play e) = _tree e.
Proof. unfold Engine.play. by destruct (_playIntervalId _). Qed.

End Reinitialize.

(** X15. initialize depends on the engine only through its tree: called after
    any stepping, reset, play, pause or speed change, it gives exactly the
    engine a first initialize with that type gives, with step index -1, an
    empty history, playback stopped and animationSpeed back at 500. *)
Theorem initialize_forgets (type type' : string) (e : ExecutionEngine)
        (ops : list stepOp) (ms : Z) :
  Engine.initialize type (run ops (Engine.initialize type' e)).2
  = Engine.initialize type e /\
  Engine.initialize type (Engine.reset e) = Engine.initialize type e /\
  Engine.initialize type (Engine.setSpeed ms e) = Engine.initialize type e /\
  Engine.initialize type (Engine.play e) = Engine.initialize type e /\
  Engine.initialize type (Engine.pause e) = Engine.initialize type e /\
  animationSpeed (Engine.getState (Engine.initialize type e)) = 500 /\
  isPlaying (Engine.getState (Engine.initialize type e)) = false /\
  _playIntervalId (Engine.initialize type e) = None /\
  Engine.getCurrentStepIndex (Engine.initialize type e) = -1 /\
  _history (_stateManager (Engine.initialize type e)) = [].
Proof.
  repeat split.
  - apply initialize_tree. by rewrite (proj2 (run_frame ops _)).
  - apply initialize_tree, setSpeed_tree.
  - apply initialize_tree, play_tree.
Qed.

Section Flags.

(** A change of the live state that keeps the step index and the history
    does not stop [previousStep] from installing the top snapshot. *)
Lemma previousStep_after (e e1 e2 : ExecutionEngine) :
  Engine.nextStep e = (Return true, e1) ->
  currentStepIndex (_state (_stateManager e2))
  = currentStepIndex (_state (_stateManager e1)) ->
  _history (_stateManager e2) = _history (_stateManager e1) ->
  Engine.previousStep e2 = (Return true, Engine.with_manager (_stateManager e) e2).
Proof.
  intros Hnext Hidx Hhist.
  destruct (nextStep_true e e1 Hnext) as (step & Hstep & ->).
  apply array_get_range in Hstep.
  simpl in Hidx, Hhist. rewrite applyStep_index in Hidx.
  rewrite applyStep_history in Hhist. simpl in Hhist. unfold push in Hhist.
  rewrite cloneState_id in Hhist.
  rewrite (previousStep_pop e2 (_history (_stateManager e)) (_state (_stateManager e)));
    [|lia|done].
  by destruct e as [[s h] t st p].
Qed.

Lemma setSpeed_effect (ms : Z) (e : ExecutionEngine) :
  currentStepIndex (_state (_stateManager (Engine.setSpeed ms e)))
  = currentStepIndex (_state (_stateManager e)) /\
  _history (_stateManager (Engine.setSpeed ms e)) = _history (_stateManager e) /\
  animationSpeed (_state (_stateManager (Engine.setSpeed ms e))) = ms /\
  isPlaying (_state (_stateManager (Engine.setSpeed ms e)))
  = isPlaying (_state (_stateManager e)) /\
  _steps (Engine.setSpeed ms e) = _steps e.
Proof.
  unfold Engine.setSpeed. rewrite getState_state. simpl.
  destruct (isPlaying (_state (_stateManager e))) eqn:Hp; simpl; [|done].
  unfold Engine.play. simpl. done.
Qed.

End Flags.

(** X16. setSpeed(ms) sets animationSpeed to ms and changes nothing else of
    the state (step index, call stack, node states, highlighted line, output,
    isPlaying), nor the history or the steps; when the state says playing, a
    timer handle is held afterwards; and a second setSpeed overrides the
    first. *)
Theorem setSpeed_sets_speed (ms ms' : Z) (e : ExecutionEngine) :
  Engine.getState (Engine.setSpeed ms e)
  = {| currentStepIndex := currentStepIndex (Engine.getState e);
       callStack := callStack (Engine.getState e);
       nodeStates := nodeStates (Engine.getState e);
       highlightedLine := highlightedLine (Engine.getState e);
       traversalType := traversalType (Engine.getState e);
       isPlaying := isPlaying (Engine.getState e);
       animationSpeed := ms;
       traversalOutput := traversalOutput (Engine.getState e) |} /\
  _history (_stateManager (Engine.setSpeed ms e)) = _history (_stateManager e) /\
  _steps (Engine.setSpeed ms e) = _steps e /\
  (isPlaying (Engine.getState e) = true ->
   _playIntervalId (Engine.setSpeed ms e) = Some tt) /\
  Engine.setSpeed ms' (Engine.setSpeed ms e) = Engine.setSpeed ms' e.
Proof.
  rewrite !getState_state. unfold Engine.setSpeed. rewrite !getState_state.
  destruct e as [[s h] t st p]. simpl.
  destruct s as [i cs ns hl ty pl sp out]. simpl.
  destruct pl; simpl; rewrite ?map_spread; repeat split; try done.
Qed.

(** X17. Stepping back installs the snapshot whole: after a successful
    nextStep, whatever setSpeed, play or pause did since, previousStep
    succeeds and the state, animationSpeed and isPlaying included, is again
    the one held before the forward step; the timer handle is left as the
    call in between set it. *)
Theorem stepBack_restores_flags (ms : Z) (e e1 : ExecutionEngine) :
  Engine.nextStep e = (Return true, e1) ->
  (exists e',
     Engine.previousStep (Engine.setSpeed ms e1) = (Return true, e') /\
     Engine.getState e' = Engine.getState e /\
     _playIntervalId e' = _playIntervalId (Engine.setSpeed ms e1)) /\
  (exists e',
     Engine.previousStep (Engine.play e1) = (Return true, e') /\
     Engine.getState e' = Engine.getState e /\
     _playIntervalId e' = Some tt) /\
  (exists e',
     Engine.previousStep (Engine.pause e1) = (Return true, e') /\
     Engine.getState e' = Engine.getState e /\
     _playIntervalId e' = None).
Proof.
  intros Hnext. split; [|split].
  - destruct (setSpeed_effect ms e1) as (Hi & Hh & _).
    eexists. split; [by apply (previousStep_after e e1)|].
    by rewrite !getState_state.
  - eexists. split.
    + apply (previousStep_after e e1); [done|..];
        unfold Engine.play; by destruct (_playIntervalId e1).
    + rewrite !getState_state. split; [done|].
      cbn [Engine.with_manager _playIntervalId]. unfold Engine.play.
      by destruct (_playIntervalId e1) as [[]|] eqn:Hp.
  - eexists. split; [by apply (previousStep_after e e1)|].
    by rewrite !getState_state.
Qed.

(** Stepping back after a speed change on the default tree: the speed is 500
    again. *)
Lemma stepBack_restores_flags_witness :
  let e := Engine.initialize "inorder" (Engine.constructor createDefaultTree) in
  Engine.nextStep e = (Return true, (Engine.nextStep e).2) /\
  exists e',
    Engine.previousStep (Engine.setSpeed 100 (Engine.nextStep e).2) = (Return true, e') /\
    Engine.getState e' = Engine.getState e /\
    _playIntervalId e' = _playIntervalId (Engine.setSpeed 100 (Engine.nextStep e).2).
Proof.
  intros e.
  assert (H : Engine.nextStep e = (Return true, (Engine.nextStep e).2))
    by (vm_compute; reflexivity).
  split; [exact H|].
  exact (proj1 (stepBack_restores_flags 100 e _ H)).
Defined.

(* ================================================================== *)
(** ** State manager: equality of states and the history stack          *)
(* ================================================================== *)

Section StatesEqual.

Lemma callStacksEqual_spec (cs1 cs2 : list StackFrame) :
  length cs1 = length cs2 ->
  callStacksEqual cs1 cs2 = true <-> map frameKey cs1 = map frameKey cs2.
Proof.
  revert cs2. induction cs1 as [|f1 cs1 IH]; intros [|f2 cs2] Hlen; try done.
  simpl in Hlen. injection Hlen as Hlen. specialize (IH cs2 Hlen).
  cbn [callStacksEqual map]. unfold frameKey at 1 3.
  destruct (String.eqb_spec (StackFrame.functionName f1) (StackFrame.functionName f2))
    as [Hfn|Hfn]; simpl.
  - case_bool_decide as Hnv; simpl.
    + rewrite IH, Hfn, Hnv. split; [by intros -> | by intros [= ->]].
    + split; [done | intros [= _ ? _]; done].
  - split; [done | intros [= ? _ _]; done].
Qed.

Lemma outputsEqual_spec (o1 o2 : list Z) :
  length o1 = length o2 -> outputsEqual o1 o2 = true <-> o1 = o2.
Proof.
  revert o2. induction o1 as [|v1 o1 IH]; intros [|v2 o2] Hlen; try done.
  simpl in Hlen. injection Hlen as Hlen. specialize (IH o2 Hlen).
  cbn [outputsEqual]. destruct (Z.eqb_spec v1 v2) as [->|Hne]; simpl.
  - rewrite IH. split; [by intros -> | by intros [= ->]].
  - split; [done | intros [= ? _]; done].
Qed.

Lemma nodeStatesEqual_spec (m1 m2 : gmap Z NodeState) :
  size m1 = size m2 -> nodeStatesEqual m1 m2 = true <-> m1 = m2.
Proof.
  intros Hsize. split; [|intros ->; apply nodeStatesEqual_refl].
  unfold nodeStatesEqual. rewrite forallb_forall. intros Hall.
  apply map_subseteq_size_eq; [|lia].
  apply map_subseteq_spec. intros k v Hkv.
  assert (Hin : In (k, v) (map_to_list m1)).
  { apply list_elem_of_In. by apply elem_of_map_to_list. }
  apply Hall in Hin. simpl in Hin. by apply bool_decide_eq_true in Hin.
Qed.

End StatesEqual.

(** X18. statesEqual returns true exactly when the two states have the same
    step index, highlighted line, traversal type, isPlaying flag, animation
    speed, node states and output, and call stacks whose frames agree one by
    one in function name and node value; the return address of a frame is not
    compared. *)
Theorem statesEqual_spec (state1 state2 : AppState) :
  statesEqual state1 state2 = true <->
  currentStepIndex state1 = currentStepIndex state2 /\
  highlightedLine state1 = highlightedLine state2 /\
  traversalType state1 = traversalType state2 /\
  isPlaying state1 = isPlaying state2 /\
  animationSpeed state1 = animationSpeed state2 /\
  map frameKey (callStack state1) = map frameKey (callStack state2) /\
  nodeStates state1 = nodeStates state2 /\
  traversalOutput state1 = traversalOutput state2.
Proof.
  unfold statesEqual.
  destruct (Z.eqb_spec (currentStepIndex state1) (currentStepIndex state2));
    simpl; [|split; [done | tauto]].
  destruct (Z.eqb_spec (highlightedLine state1) (highlightedLine state2));
    simpl; [|split; [done | tauto]].
  destruct (String.eqb_spec (traversalType state1) (traversalType state2));
    simpl; [|split; [done | tauto]].
  destruct (Bool.eqb_spec (isPlaying state1) (isPlaying state2));
    simpl; [|split; [done | tauto]].
  destruct (Z.eqb_spec (animationSpeed state1) (animationSpeed state2));
    simpl; [|split; [done | tauto]].
  destruct (Nat.eqb_spec (length (callStack state1)) (length (callStack state2)))
    as [Hcs|Hcs]; simpl.
  2:{ split; [done|]. intros (_ & _ & _ & _ & _ & Hk & _). exfalso. apply Hcs.
      by rewrite <- (length_map frameKey), Hk, length_map. }
  destruct (Nat.eqb_spec (size (nodeStates state1)) (size (nodeStates state2)))
    as [Hns|Hns]; simpl.
  2:{ split; [done|]. intros (_ & _ & _ & _ & _ & _ & Hm & _). by rewrite Hm in Hns. }
  destruct (Nat.eqb_spec (length (traversalOutput state1))
                         (length (traversalOutput state2))) as [Hout|Hout]; simpl.
  2:{ split; [done|]. intros (_ & _ & _ & _ & _ & _ & _ & Ho). by rewrite Ho in Hout. }
  pose proof (callStacksEqual_spec _ _ Hcs) as H1.
  pose proof (nodeStatesEqual_spec _ _ Hns) as H2.
  pose proof (outputsEqual_spec _ _ Hout) as H3.
  destruct (callStacksEqual _ _); simpl; [|split; [done|]; intros; intuition congruence].
  destruct (nodeStatesEqual _ _); simpl; [|split; [done|]; intros; intuition congruence].
  destruct (outputsEqual _ _); simpl; [|split; [done|]; intros; intuition congruence].
  intuition.
Qed.

Section HistoryStack.

Lemma popHistory_push (sm : StateManager) :
  SM.popHistory (SM.pushHistory sm) = (Some (_state sm), sm).
Proof.
  unfold SM.popHistory, SM.pushHistory, push. simpl.
  rewrite length_app, Nat.add_comm. simpl.
  rewrite last_snoc, removelast_last, cloneState_id. by destruct sm.
Qed.

Lemma pushAll_spec (states : list AppState) (sm : StateManager) :
  pushAll states sm
  = {| _state := default (_state sm) (last states);
       _history := _history sm ++ states |}.
Proof.
  induction states as [|s states IH] using rev_ind.
  - simpl. rewrite app_nil_r. by destruct sm.
  - unfold pushAll in *. rewrite foldl_app, IH. cbn [foldl].
    rewrite setState_whole, last_snoc. unfold SM.pushHistory, push. simpl.
    by rewrite cloneState_id, app_assoc.
Qed.

Lemma popN_spec (popped : list AppState) (state : AppState) (h : list AppState) :
  popN (length popped) {| _state := state; _history := h ++ popped |}
  = (map Some (rev popped), {| _state := state; _history := h |}).
Proof.
  induction popped as [|s popped IH] using rev_ind.
  - simpl. by rewrite app_nil_r.
  - rewrite length_app, Nat.add_comm. cbn [length Nat.add popN].
    unfold SM.popHistory. cbn [_history _state].
    rewrite app_assoc, length_app, Nat.add_comm. cbn [length Nat.add Nat.eqb].
    rewrite last_snoc, removelast_last, IH.
    by rewrite rev_app_distr.
Qed.

End HistoryStack.

(** X19. The history is a stack of copies: after setState(s) and
    pushHistory() for each state of a list in turn, as many popHistory()
    calls return those states last pushed first and leave the history as it
    was before, without touching the live state; and on an empty history
    popHistory() returns null and changes nothing. *)
Theorem history_lifo (states : list AppState) (sm : StateManager) :
  popN (length states) (pushAll states sm)
  = (map Some (rev states),
     {| _state := default (_state sm) (last states); _history := _history sm |}) /\
  SM.getHistoryLength (pushAll states sm)
  = (SM.getHistoryLength sm + length states)%nat /\
  (_history sm = [] -> SM.popHistory sm = (None, sm)).
Proof.
  rewrite pushAll_spec. split; [apply popN_spec|]. split.
  - unfold SM.getHistoryLength. simpl. apply length_app.
  - intros Hnil. unfold SM.popHistory. by rewrite Hnil.
Qed.

(** X20. pushCallStack puts a copy of the frame on top of the call stack and
    popCallStack removes the top frame, so a push followed by a pop gives the
    manager back; popCallStack on an empty call stack changes nothing; neither
    touches the history or any other field of the state. *)
Theorem callStack_push_pop (frame : StackFrame) (sm : StateManager) :
  callStack (_state (SM.pushCallStack frame sm)) = callStack (_state sm) ++ [frame] /\
  SM.popCallStack (SM.pushCallStack frame sm) = sm /\
  (callStack (_state sm) = [] -> SM.popCallStack sm = sm) /\
  callStack (_state (SM.popCallStack sm)) = removelast (callStack (_state sm)) /\
  withCallStack [] (_state (SM.pushCallStack frame sm)) = withCallStack [] (_state sm) /\
  withCallStack [] (_state (SM.popCallStack sm)) = withCallStack [] (_state sm) /\
  _history (SM.pushCallStack frame sm) = _history sm /\
  _history (SM.popCallStack sm) = _history sm.
Proof.
  destruct sm as [[i cs ns hl ty pl sp out] h].
  assert (Hpop : forall cs',
             SM.popCallStack
               {| _state := {| currentStepIndex := i; callStack := cs';
                               nodeStates := ns; highlightedLine := hl;
                               traversalType := ty; isPlaying := pl;
                               animationSpeed := sp; traversalOutput := out |};
                  _history := h |}
             = {| _state := {| currentStepIndex := i; callStack := removelast cs';
                               nodeStates := ns; highlightedLine := hl;
                               traversalType := ty; isPlaying := pl;
                               animationSpeed := sp; traversalOutput := out |};
                  _history := h |}).
  { intros cs'. unfold SM.popCallStack, SM.setCallStack, SM.setState. simpl.
    destruct cs' as [|f cs']; [done|]. simpl. by rewrite map_spread. }
  assert (Hpush :
            SM.pushCallStack frame
              {| _state := {| currentStepIndex := i; callStack := cs;
                              nodeStates := ns; highlightedLine := hl;
                              traversalType := ty; isPlaying := pl;
                              animationSpeed := sp; traversalOutput := out |};
                 _history := h |}
            = {| _state := {| currentStepIndex := i; callStack := cs ++ [frame];
                              nodeStates := ns; highlightedLine := hl;
                              traversalType := ty; isPlaying := pl;
                              animationSpeed := sp; traversalOutput := out |};
                 _history := h |}).
  { unfold SM.pushCallStack, SM.setCallStack, SM.setState. simpl.
    by rewrite map_spread, spread_id. }
  rewrite Hpush, !Hpop, removelast_last. unfold withCallStack. simpl.
  repeat split. by intros ->.
Qed.

(* ================================================================== *)
(** ** Stack renderer                                                   *)
(* ================================================================== *)

Section StackRendererFacts.

Lemma pop_push (stack : list StackFrame) (frame : StackFrame) :
  StackRenderer.pop (StackRenderer.push stack frame) = (Some frame, stack).
Proof.
  unfold StackRenderer.pop, StackRenderer.push.
  rewrite length_app, Nat.add_comm. simpl. by rewrite last_snoc, removelast_last.
Qed.

Lemma popTimes_pushes (frames stack : list StackFrame) :
  popTimes (length frames) (foldl StackRenderer.push stack frames)
  = (map Some (rev frames), stack).
Proof.
  induction frames as [|f frames IH] using rev_ind; [done|].
  rewrite foldl_app, length_app, Nat.add_comm. cbn [foldl length Nat.add popTimes].
  by rewrite pop_push, IH, rev_app_distr.
Qed.

Lemma pushes_app (frames stack : list StackFrame) :
  foldl StackRenderer.push stack frames = stack ++ frames.
Proof.
  revert stack. induction frames as [|f frames IH]; intros stack; simpl.
  - by rewrite app_nil_r.
  - rewrite IH. unfold StackRenderer.push. by rewrite <- app_assoc.
Qed.

Lemma getTopFrame_last (stack : list StackFrame) :
  StackRenderer.getTopFrame stack = last stack.
Proof. unfold StackRenderer.getTopFrame. by destruct stack. Qed.

Lemma head_rev {A} (l : list A) : head (rev l) = last l.
Proof.
  induction l as [|x l IH] using rev_ind; [done|].
  by rewrite rev_app_distr, last_snoc.
Qed.

End StackRendererFacts.

(** X21. The stack renderer is last in, first out: after pushing frames one
    by one, as many pops return them in the reverse order and leave the stack
    as it was before the pushes; the top frame after a push is the frame
    pushed; pop and getTopFrame on an empty stack return null and change
    nothing. *)
Theorem stackRenderer_lifo (frames stack : list StackFrame) (frame : StackFrame) :
  popTimes (length frames) (foldl StackRenderer.push stack frames)
  = (map Some (rev frames), stack) /\
  StackRenderer.getTopFrame (StackRenderer.push stack frame) = Some frame /\
  StackRenderer.getStackSize (foldl StackRenderer.push stack frames)
  = (StackRenderer.getStackSize stack + length frames)%nat /\
  StackRenderer.pop [] = (None, []) /\
  StackRenderer.getTopFrame [] = None.
Proof.
  split; [apply popTimes_pushes|]. split.
  - rewrite getTopFrame_last. apply last_snoc.
  - split; [|done]. rewrite pushes_app. apply length_app.
Qed.

(** X22. The visual order is the stack reversed: its first frame is the top
    frame, the frame shown at position i is the frame at index
    length - 1 - i, and isVisualOrderLIFO returns true for every stack. *)
Theorem visual_order_top (stack : list StackFrame) :
  head (StackRenderer.getVisualOrder stack) = StackRenderer.getTopFrame stack /\
  (forall i : nat,
     (i < length stack)%nat ->
     StackRenderer.getVisualOrder stack !! i
     = StackRenderer.getFrameAt stack (Z.of_nat (length stack) - 1 - Z.of_nat i)) /\
  StackRenderer.isVisualOrderLIFO stack = true /\
  (forall index : Z,
     StackRenderer.getFrameAt stack index = None <->
     index < 0 \/ Z.of_nat (length stack) <= index).
Proof.
  unfold StackRenderer.getVisualOrder. split; [|split; [|split]].
  - by rewrite getTopFrame_last, head_rev.
  - intros i Hi. unfold StackRenderer.getFrameAt, array_get.
    rewrite (proj2 (Z.ltb_ge _ _)) by lia.
    destruct (Z.geb_spec (Z.of_nat (length stack) - 1 - Z.of_nat i)
                         (Z.of_nat (length stack))); [lia|].
    simpl. rewrite decide_True by lia.
    rewrite rev_alt. change (rev_append stack []) with (reverse stack).
    rewrite reverse_lookup by done. f_equal. lia.
  - unfold StackRenderer.isVisualOrderLIFO, StackRenderer.getVisualOrder.
    destruct (_ <=? 1)%nat; [done|]. by rewrite bool_decide_eq_true, head_rev.
  - intros index. unfold StackRenderer.getFrameAt, array_get.
    destruct (Z.ltb_spec index 0); simpl; [split; [lia | done]|].
    destruct (Z.geb_spec index (Z.of_nat (length stack))); [split; [lia | done]|].
    rewrite decide_True by lia. split; [|lia].
    intros Hnone%lookup_ge_None. lia.
Qed.

(** X23. hasFrameWithNodeValue is true exactly when findFrameByNodeValue
    finds a frame, that is when some frame of the stack carries the value
    (null included); the frame found carries it and is the lowest such frame
    of the stack. *)
Theorem find_frame (stack : list StackFrame) (nodeValue : option Z) :
  (StackRenderer.hasFrameWithNodeValue stack nodeValue = true <->
   is_Some (StackRenderer.findFrameByNodeValue stack nodeValue)) /\
  (StackRenderer.hasFrameWithNodeValue stack nodeValue = true <->
   exists f, f ∈ stack /\ StackFrame.nodeValue f = nodeValue) /\
  StackRenderer.findFrameByNodeValue stack nodeValue
  = head (filter (fun f => StackFrame.nodeValue f = nodeValue) stack).
Proof.
  unfold StackRenderer.hasFrameWithNodeValue, StackRenderer.findFrameByNodeValue.
  assert (Hfind : List.find (fun f => bool_decide (StackFrame.nodeValue f = nodeValue)) stack
                  = head (filter (fun f => StackFrame.nodeValue f = nodeValue) stack)).
  { induction stack as [|f stack IH]; [done|].
    cbn [List.find]. rewrite filter_cons.
    case_bool_decide; [by rewrite decide_True | by rewrite decide_False]. }
  assert (Hex : existsb (fun f => bool_decide (StackFrame.nodeValue f = nodeValue)) stack = true
                <-> exists f, f ∈ stack /\ StackFrame.nodeValue f = nodeValue).
  { rewrite existsb_exists. split; intros (f & Hin & Hv); exists f.
    - apply list_elem_of_In in Hin. by apply bool_decide_eq_true in Hv.
    - split; [by apply list_elem_of_In | by apply bool_decide_eq_true]. }
  split; [|split; [exact Hex | exact Hfind]].
  rewrite Hex, Hfind. split.
  - intros (f & Hin & Hv).
    destruct (filter _ stack) as [|g gs] eqn:Hf; [|by eexists].
    assert (Hin' : f ∈ filter (fun f => StackFrame.nodeValue f = nodeValue) stack)
      by by apply list_elem_of_filter.
    rewrite Hf in Hin'. by apply elem_of_nil in Hin'.
  - intros [g Hg]. exists g.
    destruct (filter _ stack) as [|g' gs] eqn:Hf; [done|]. injection Hg as ->.
    assert (Hin : g ∈ filter (fun f => StackFrame.nodeValue f = nodeValue) stack)
      by (rewrite Hf; left).
    apply list_elem_of_filter in Hin as [? ?]. done.
Qed.

Section EscapeHtml.

Lemma chars_append (s1 s2 : string) : chars (s1 +:+ s2) = chars s1 ++ chars s2.
Proof. induction s1 as [|a s1 IH]; simpl; [done | by rewrite IH]. Qed.

(** After [replaceAll c by_], every character is a character of [by_] or a
    character of the text other than [c]. *)
Lemma replaceAll_Forall (Q : Ascii.ascii -> Prop) (c : Ascii.ascii) (by_ text : string) :
  Forall Q (chars by_) ->
  Forall (fun a => a <> c -> Q a) (chars text) ->
  Forall Q (chars (StackRenderer.replaceAll c by_ text)).
Proof.
  intros Hby. induction text as [|a text IH]; simpl; intros Htext; [constructor|].
  apply Forall_cons in Htext as [Ha Htext].
  destruct (Ascii.eqb_spec a c) as [->|Hne].
  - rewrite chars_append. apply Forall_app. split; [done | by apply IH].
  - simpl. constructor; [by apply Ha | by apply IH].
Qed.

Lemma replaceAll_absent (c : Ascii.ascii) (by_ text : string) :
  Forall (fun a => a <> c) (chars text) ->
  StackRenderer.replaceAll c by_ text = text.
Proof.
  induction text as [|a text IH]; simpl; intros Htext; [done|].
  apply Forall_cons in Htext as [Ha Htext].
  destruct (Ascii.eqb_spec a c) as [->|Hne]; [done|]. by rewrite IH.
Qed.

End EscapeHtml.

(** X24. The text escapeHtml returns holds no [<], no [>] and no double
    quote, whatever the input; and a text with none of [&], [<], [>] and the
    double quote is returned as it is. *)
Theorem escapeHtml_safe (text : string) :
  Forall (fun a => a <> StackRenderer.char_lt /\ a <> StackRenderer.char_gt /\ a <> StackRenderer.char_quot)
         (chars (StackRenderer.escapeHtml text)) /\
  (Forall (fun a => a <> StackRenderer.char_amp /\ a <> StackRenderer.char_lt /\ a <> StackRenderer.char_gt /\ a <> StackRenderer.char_quot)
          (chars text) ->
   StackRenderer.escapeHtml text = text).
Proof.
  unfold StackRenderer.escapeHtml. split.
  - apply replaceAll_Forall.
    { repeat constructor; by vm_compute. }
    eapply Forall_impl.
    + apply (replaceAll_Forall (fun a => a <> StackRenderer.char_lt /\ a <> StackRenderer.char_gt)).
      { repeat constructor; by vm_compute. }
      eapply Forall_impl.
      * apply (replaceAll_Forall (fun a => a <> StackRenderer.char_lt)).
        { repeat constructor; by vm_compute. }
        apply Forall_forall. intros a _ Ha. exact Ha.
      * simpl. intros a Ha Hgt. by split.
    + simpl. intros a [Hlt Hgt] Hq. by repeat split.
  - intros Hclean.
    rewrite (replaceAll_absent StackRenderer.char_amp), (replaceAll_absent StackRenderer.char_lt),
      (replaceAll_absent StackRenderer.char_gt), (replaceAll_absent StackRenderer.char_quot);
      [done|..]; eapply Forall_impl; try exact Hclean; simpl; tauto.
Qed.

(* ================================================================== *)
(** ** Code renderer                                                    *)
(* ================================================================== *)

Section CodeRendererFacts.

Lemma valid_types (type : string) :
  isValidTraversalType type = true ->
  type = "inorder" \/ type = "preorder" \/ type = "postorder".
Proof.
  unfold isValidTraversalType, TRAVERSAL_TYPES. cbn [existsb].
  destruct (String.eqb_spec type "inorder"); [tauto|].
  destruct (String.eqb_spec type "preorder"); [tauto|].
  destruct (String.eqb_spec type "postorder"); [tauto|]. done.
Qed.

Lemma valid_lineCount (type : string) :
  isValidTraversalType type = true -> getLineCount type = 6.
Proof. intros [-> | [-> | ->]]%valid_types; reflexivity. Qed.

Lemma renderer_ok_op (r : CodeRenderer) (op : rendererOp) :
  renderer_ok r -> renderer_ok (doRendererOp r op).
Proof.
  intros [Hty Hline]. destruct op as [type|lineNumber|]; simpl.
  - unfold Renderer.setTraversalType.
    destruct (isValidTraversalType type) eqn:Hv; [|done]. split; simpl; [done | lia].
  - unfold Renderer.highlightLine, isValidLineNumber.
    rewrite (valid_lineCount _ Hty).
    destruct (Z.eqb_spec lineNumber 0) as [->|Hne]; simpl; [split; simpl; [done | lia]|].
    destruct (Z.geb_spec lineNumber 1), (Z.leb_spec lineNumber 6); simpl;
      try done; split; simpl; [done | lia].
  - split; simpl; [done | lia].
Qed.

Lemma renderer_ok_run (ops : list rendererOp) (r : CodeRenderer) :
  renderer_ok r -> renderer_ok (foldl doRendererOp r ops).
Proof.
  revert r. induction ops as [|op ops IH]; intros r Hr; [done|].
  simpl. by apply IH, renderer_ok_op.
Qed.

Lemma getLineText_valid (r : CodeRenderer) (lineNumber : Z) :
  isValidTraversalType (currentType r) = true ->
  1 <= lineNumber <= 6 ->
  is_Some (Renderer.getLineText lineNumber r).
Proof.
  intros Hty Hline. unfold Renderer.getLineText, Renderer.getTemplate.
  pose proof (valid_lineCount _ Hty) as Hcount. unfold getLineCount in Hcount.
  rewrite Hcount.
  destruct (Z.geb_spec lineNumber 1); [|lia].
  destruct (Z.leb_spec lineNumber 6); [|lia]. simpl.
  destruct (array_get_Some (getCodeTemplate (currentType r)) (lineNumber - 1))
    as [line ->]; [lia | by eexists].
Qed.

End CodeRendererFacts.

(** X25. Whatever calls of setTraversalType, highlightLine and clearHighlight
    a code renderer receives, with whatever arguments, its traversal type
    stays one of "inorder", "preorder" and "postorder", its listing has 6
    lines, and its highlighted line is 0 or the number of a line whose text
    getLineText returns; an invalid type and an out-of-range line are ignored,
    and a valid type resets the highlight to 0. *)
Theorem renderer_invariant (ops : list rendererOp) (type : string) (lineNumber : Z) :
  let r := foldl doRendererOp Renderer.constructor ops in
  isValidTraversalType (Renderer.getTraversalType r) = true /\
  Renderer.getLineCount r = 6 /\
  0 <= Renderer.getHighlightedLine r <= 6 /\
  (Renderer.getHighlightedLine r <> 0 ->
   is_Some (Renderer.getLineText (Renderer.getHighlightedLine r) r)) /\
  (isValidTraversalType type = false -> Renderer.setTraversalType type r = r) /\
  (isValidTraversalType type = true ->
   Renderer.getHighlightedLine (Renderer.setTraversalType type r) = 0 /\
   Renderer.getTraversalType (Renderer.setTraversalType type r) = type) /\
  (lineNumber < 0 \/ 6 < lineNumber -> Renderer.highlightLine lineNumber r = r) /\
  (0 <= lineNumber <= 6 ->
   Renderer.getHighlightedLine (Renderer.highlightLine lineNumber r) = lineNumber) /\
  (Renderer.getLineText lineNumber r = None <-> lineNumber < 1 \/ 6 < lineNumber).
Proof.
  intros r.
  assert (Hok : renderer_ok r) by (apply renderer_ok_run; split; simpl; [done | lia]).
  destruct Hok as [Hty Hline].
  pose proof (valid_lineCount _ Hty) as Hcount.
  unfold Renderer.getTraversalType, Renderer.getLineCount, Renderer.getHighlightedLine.
  split; [done|]. split; [done|]. split; [done|]. split.
  { intros Hne. apply getLineText_valid; [done | lia]. }
  split.
  { intros Hinv. unfold Renderer.setTraversalType. by rewrite Hinv. }
  split.
  { intros Hv. unfold Renderer.setTraversalType. by rewrite Hv. }
  unfold Renderer.highlightLine, isValidLineNumber. rewrite Hcount.
  split; [|split].
  - intros Hout. destruct (Z.eqb_spec lineNumber 0); [lia|]. simpl.
    destruct (Z.geb_spec lineNumber 1), (Z.leb_spec lineNumber 6); simpl; try done; lia.
  - intros Hin. destruct (Z.eqb_spec lineNumber 0); [done|]. simpl.
    destruct (Z.geb_spec lineNumber 1), (Z.leb_spec lineNumber 6); simpl; try done; lia.
  - split.
    + intros Hnone.
      destruct (decide (1 <= lineNumber <= 6)) as [Hin|Hout]; [|lia].
      destruct (getLineText_valid r lineNumber Hty Hin) as [t Ht]. congruence.
    + intros Hout. unfold Renderer.getLineText, Renderer.getTemplate.
      unfold getLineCount in Hcount. rewrite Hcount.
      destruct (Z.geb_spec lineNumber 1), (Z.leb_spec lineNumber 6); simpl; try done; lia.
Qed.

Section Listing.

Lemma null_steps_listed (g : Generator) :
  Forall (step_listed (generatorType g))
    [ExecutionStep.call None 1;
     ExecutionStep.checkNull None 2;
     ExecutionStep.return_ None 2 true].
Proof.
  destruct g;
    repeat (apply Forall_cons_2; [split; reflexivity|]); apply Forall_nil_2.
Qed.

Lemma generated_listed (g : Generator) (root : tree) :
  Forall (step_listed (generatorType g)) (generateSteps g root).
Proof.
  pose proof (null_steps_listed g) as Hnull.
  generators_induction g root; try exact Hnull;
    repeat (apply Forall_app; split); try (by apply IHl); try (by apply IHr);
    repeat (apply Forall_cons_2; [split; reflexivity|]); apply Forall_nil_2.
Qed.

Lemma tokens_join (type : string) :
  Forall (fun line => joinTokens line = lineText line) (getCodeTemplate type).
Proof.
  unfold getCodeTemplate, CODE_TEMPLATES.
  repeat (destruct (String.eqb type _));
    cbn [default];
    repeat (apply Forall_cons_2; [reflexivity|]); apply Forall_nil_2.
Qed.

End Listing.

(** X26. For a valid traversal type, every step generated for it points at
    the line of that type's listing that the step stands for: the signature
    line for a CALL, the null check for a CHECK_NULL and for the RETURN of an
    absent node, the print line for a PROCESS_NODE, the calls on node.left
    and node.right for RECURSE_LEFT and RECURSE_RIGHT, the closing brace for
    the RETURN of a node; the renderer accepts the step's line as the line to
    highlight; and the tokens of every line of the listing, joined, give the
    line's text. *)
Theorem steps_match_listing (type : string) :
  isValidTraversalType type = true ->
  (forall (root : tree) (step : ExecutionStep),
     step ∈ generateSteps (getTraversalGenerator type) root ->
     Renderer.getLineText (ExecutionStep.codeLine step)
       (Renderer.setTraversalType type Renderer.constructor)
     = Some (listingLine (Engine._getFunctionName type) step) /\
     Renderer.getHighlightedLine
       (Renderer.highlightLine (ExecutionStep.codeLine step)
          (Renderer.setTraversalType type Renderer.constructor))
     = ExecutionStep.codeLine step) /\
  Forall (fun line => joinTokens line = lineText line) (getCodeTemplate type).
Proof.
  intros Hv. split; [|apply tokens_join].
  intros root step Hin.
  assert (Hty : type = generatorType (getTraversalGenerator type))
    by (apply valid_types in Hv as [-> | [-> | ->]]; reflexivity).
  pose proof (generated_listed (getTraversalGenerator type) root) as Hall.
  rewrite <- Hty in Hall. rewrite Forall_forall in Hall. by apply Hall.
Qed.

(** The listing theorem for the postorder type. *)
Lemma steps_match_listing_witness :
  isValidTraversalType "postorder" = true /\
  Renderer.getLineText 5 (Renderer.setTraversalType "postorder" Renderer.constructor)
  = Some (listingLine "postOrder" (ExecutionStep.processNode (Some 1) 5)).
Proof.
  split; [reflexivity|].
  refine (proj1 (proj1 (steps_match_listing "postorder" eq_refl) (leaf 1)
                       (ExecutionStep.processNode (Some 1) 5) _)).
  vm_compute. repeat (first [left | right]).
Defined.
